(** * Cluster state engine of the Kafka interactive diagram (src/src/App.tsx)

    A shallow embedding of the pure core of [App.tsx]: topology building,
    leader election, producer routing, consumer-group rebalancing and
    offset tracking, together with the properties stated about them.

    Conventions of the embedding.
    - A JavaScript [number] that holds an integer is a [Z]; a number that
      may be [NaN] is an [option Z] with [None] for [NaN].
    - A value of type [string | null] (or possibly [undefined]) is an
      [option string] with [None] for the nullish value.
    - A string is a [string], its code units being those below 256; the
      hash of the router is also given on arbitrary sequences of code
      units ([hash_partition]).
    - A [Record<string, V>] is a [gmap string V]. Every key the code uses
      is a partition key, which contains [":p"], so no lookup reaches a
      property inherited from [Object.prototype].
    - A function that can throw (a [TypeError] on a property of
      [undefined], a [RangeError] on an array length of [2^32] or more)
      returns an [option], with [None] for the exception.
    - Objects mutated in place are threaded explicitly: a function that
      mutates its argument returns the new value of that argument. *)

From Stdlib Require Import ZArith Lia List.
From stdpp Require Import base option list gmap strings pretty.

Local Open Scope Z_scope.

(** ** JavaScript primitives used by the code *)

Module JS.

(** [ToInt32]: reduce modulo [2^32], then read as a signed 32-bit value. *)
Definition toInt32 (x : Z) : Z :=
  let m := x mod 2 ^ 32 in
  if 2 ^ 31 <=? m then m - 2 ^ 32 else m.

(** [a | b] on integers: both operands go through [ToInt32]. *)
Definition bitor (a b : Z) : Z := Z.lor (toInt32 a) (toInt32 b).

(** [a % b]: remainder with the sign of the dividend, [NaN] when [b] is 0. *)
Definition rem (a b : Z) : option Z :=
  if decide (b = 0) then None else Some (Z.rem a b).

(** [a % b] when the dividend itself may be [NaN]. *)
Definition rem_nan (a : option Z) (b : Z) : option Z := a ≫= λ x, rem x b.

(** [arr[i]] for a numeric index that may be [NaN]: [None] is [undefined]. *)
Definition index {A} (arr : list A) (i : option Z) : option A :=
  i ≫= λ z, if decide (0 <= z) then arr !! Z.to_nat z else None.

(** [Array.from({ length: n }, (_, i) => f(i))]: [ToLength] turns a
    negative length into 0; a length of [2^32] or more is a [RangeError],
    raised when the array is created, before [f] is called; [f] itself
    may throw. *)
Definition array_from {A} (n : Z) (f : Z → option A) : option (list A) :=
  if decide (2 ^ 32 <= n) then None else mapM f (seqZ 0 n).

(** Truthiness of a string: only the empty string is falsy. *)
Definition truthy_string (s : string) : bool := bool_decide (s ≠ EmptyString).

(** Truthiness of a [string | null] value. *)
Definition truthy (v : option string) : bool :=
  match v with
  | Some s => truthy_string s
  | None => false
  end.

(** [s.charCodeAt(i)] for every position of [s], in order. *)
Fixpoint charCodes (s : string) : list Z :=
  match s with
  | EmptyString => []
  | String a s' => Z.of_nat (Ascii.nat_of_ascii a) :: charCodes s'
  end.

End JS.

(** ** Types *)

Module Broker.
Record t := mk { id : string; name : string; up : bool }.
End Broker.

Module Partition.
(** [offline] is an optional field: [None] until an election sets it. *)
Record t := mk {
  id : Z;
  topic : string;
  leader : option string;
  replicas : list string;
  offline : option bool;
  endOffset : Z
}.

Definition set_election (p : t) (l : option string) (o : bool) : t :=
  mk (id p) (topic p) l (replicas p) (Some o) (endOffset p).

Definition set_endOffset (p : t) (e : Z) : t :=
  mk (id p) (topic p) (leader p) (replicas p) (offline p) e.
End Partition.

Module Topic.
Record t := mk { name : string; partitions : list Partition.t; color : string }.

Definition set_partitions (tp : t) (ps : list Partition.t) : t :=
  mk (name tp) ps (color tp).
End Topic.

Module Cluster.
Record t := mk { brokers : list Broker.t; topics : list Topic.t }.
End Cluster.

Module Consumer.
Record t := mk { id : string }.
End Consumer.

Module ConsumerGroup.
Record t := mk {
  id : string;
  members : list Consumer.t;
  assignments : gmap string string;
  offsets : gmap string Z
}.

Definition set_assignments (g : t) (a : gmap string string) : t :=
  mk (id g) (members g) a (offsets g).

Definition set_offsets (g : t) (o : gmap string Z) : t :=
  mk (id g) (members g) (assignments g) o.
End ConsumerGroup.

Module TopicConfig.
Record t := mk { name : string; partitions : Z; replicationFactor : Z }.
End TopicConfig.

(** ** Utilities *)

Definition PALETTE : list string :=
  ["#22c55e"; "#3b82f6"; "#eab308"; "#ef4444";
   "#a855f7"; "#06b6d4"; "#f97316"; "#84cc16"]%string.

(** One iteration of the loop of [hashKeyToPartition]:
    [h = (h * 31 + key.charCodeAt(i)) | 0]. *)
Definition hash_step (h c : Z) : Z := JS.bitor (h * 31 + c) 0.

(** The value of [h] when the loop has run over the code units [cs]. *)
Definition hash_units (cs : list Z) : Z := foldl hash_step 0 cs.

(** [Math.abs(h) % partitions] for the [h] reached over the code units
    [cs]. [h * 31 + c] is exact in double precision, [h] being a 32-bit
    integer and [c] a code unit, so [| 0] is the only rounding. *)
Definition hash_partition (cs : list Z) (partitions : Z) : option Z :=
  JS.rem (Z.abs (hash_units cs)) partitions.

Definition hashKeyToPartition (key : string) (partitions : Z) : option Z :=
  hash_partition (JS.charCodes key) partitions.

(** The hash as the specification words it: [h = h*31 + charCode] over
    32-bit signed arithmetic, that is with two's complement wrap-around. *)
Definition wrap_signed32 (x : Z) : Z := (x + 2 ^ 31) mod 2 ^ 32 - 2 ^ 31.

Fixpoint rolling_hash_from (h : Z) (cs : list Z) : Z :=
  match cs with
  | [] => h
  | c :: cs' => rolling_hash_from (wrap_signed32 (h * 31 + c)) cs'
  end.

Definition rolling_hash (key : string) : Z := rolling_hash_from 0 (JS.charCodes key).

(** ** Topology builder *)

(** The broker built for index [i]: [{ id: `b${i}`, name: `broker-${i}`, up: true }]. *)
Definition build_broker (i : Z) : Broker.t :=
  Broker.mk ("b" +:+ pretty i) ("broker-" +:+ pretty i) true.

(** The callback of the inner [Array.from] of [buildCluster], for partition
    [p] of a topic named [tname]. Reading [.id] of [brokers[ri]] throws when
    the index does not name a broker. *)
Definition build_partition (brokers : list Broker.t) (brokerCount rf : Z)
    (tname : string) (p : Z) : option Partition.t :=
  let leaderIdx := JS.rem p brokerCount in
  replicaIdxs ←
    JS.array_from rf
      (λ k, Some (JS.rem_nan ((λ l, l + k) <$> leaderIdx) brokerCount));
  replicas ← mapM (λ ri, Broker.id <$> JS.index brokers ri) replicaIdxs;
  Some (Partition.mk p tname (head replicas) replicas None 0).

(** The callback of [topicsConfig.map] for the topic at position [idx]. *)
Definition build_topic (brokers : list Broker.t) (brokerCount : Z)
    (idx : nat) (t : TopicConfig.t) : option Topic.t :=
  let rf := Z.max 1 (Z.min (TopicConfig.replicationFactor t) brokerCount) in
  parts ← JS.array_from (TopicConfig.partitions t)
            (build_partition brokers brokerCount rf (TopicConfig.name t));
  Some (Topic.mk (TopicConfig.name t) parts
          (default EmptyString (PALETTE !! (idx mod length PALETTE)%nat))).

(** [topicsConfig.map((t, idx) => ...)], the position starting at [idx]. *)
Fixpoint build_topics (brokers : list Broker.t) (brokerCount : Z)
    (idx : nat) (cfgs : list TopicConfig.t) : option (list Topic.t) :=
  match cfgs with
  | [] => Some []
  | t :: rest =>
      tp ← build_topic brokers brokerCount idx t;
      tps ← build_topics brokers brokerCount (S idx) rest;
      Some (tp :: tps)
  end.

Definition buildCluster (brokerCount : Z) (topicsConfig : list TopicConfig.t)
    : option Cluster.t :=
  brokers ← JS.array_from brokerCount (λ i, Some (build_broker i));
  topics ← build_topics brokers brokerCount 0 topicsConfig;
  Some (Cluster.mk brokers topics).

(** [cloneCluster] copies every broker, topic, partition and replica list. *)
Definition cloneCluster (c : Cluster.t) : Cluster.t :=
  Cluster.mk
    ((λ b, Broker.mk (Broker.id b) (Broker.name b) (Broker.up b)) <$> Cluster.brokers c)
    ((λ t, Topic.mk (Topic.name t)
             ((λ p, Partition.mk (Partition.id p) (Partition.topic p)
                      (Partition.leader p) ((λ r, r) <$> Partition.replicas p)
                      (Partition.offline p) (Partition.endOffset p))
                <$> Topic.partitions t)
             (Topic.color t)) <$> Cluster.topics c).

(** ** Leader election *)

(** [new Set(c.brokers.filter((b) => b.up).map((b) => b.id))] *)
Definition upSet (c : Cluster.t) : gset string :=
  list_to_set (Broker.id <$> filter (λ b, Broker.up b = true) (Cluster.brokers c)).

(** [p.replicas.filter((r) => upSet.has(r))] *)
Definition aliveReplicas (ups : gset string) (p : Partition.t) : list string :=
  filter (λ r, r ∈ ups) (Partition.replicas p).

(** Truthiness of [p.leader && upSet.has(p.leader)]. *)
Definition hasLeaderAlive (ups : gset string) (p : Partition.t) : bool :=
  match Partition.leader p with
  | Some l => JS.truthy_string l && bool_decide (l ∈ ups)
  | None => false
  end.

(** The body of the inner [forEach] of [electLeaders]. *)
Definition elect_partition (ups : gset string) (p : Partition.t) : Partition.t :=
  let leader' :=
    if negb (hasLeaderAlive ups p) then head (aliveReplicas ups p)
    else Partition.leader p in
  Partition.set_election p leader' (negb (JS.truthy leader')).

Definition elect_topic (ups : gset string) (t : Topic.t) : Topic.t :=
  Topic.set_partitions t (elect_partition ups <$> Topic.partitions t).

(** [electLeaders] mutates the partitions of [c]; the result is [c] after
    the call. *)
Definition electLeaders (c : Cluster.t) : Cluster.t :=
  Cluster.mk (Cluster.brokers c) (elect_topic (upSet c) <$> Cluster.topics c).

(** ** Consumer groups *)

Definition partitionKey (t : string) (p : Z) : string := t +:+ ":p" +:+ pretty p.

(** The keys pushed to [allParts], in order. *)
Definition allParts (topics : list Topic.t) : list string :=
  topics ≫= λ t,
    (λ p, partitionKey (Topic.name t) (Partition.id p)) <$> Topic.partitions t.

(** [allParts.forEach((pk, i) => { asg[pk] = g.members[i % g.members.length].id })],
    the position starting at [i]. Reading [.id] of an undefined member throws. *)
Fixpoint assign_from (members : list Consumer.t) (i : nat) (pks : list string)
    (asg : gmap string string) : option (gmap string string) :=
  match pks with
  | [] => Some asg
  | pk :: rest =>
      c ← members !! (i mod length members)%nat;
      assign_from members (S i) rest (<[pk := Consumer.id c]> asg)
  end.

(** [rebalanceGroup] mutates [g.assignments]; the result is [g] after the call. *)
Definition rebalanceGroup (g : ConsumerGroup.t) (topics : list Topic.t)
    : option ConsumerGroup.t :=
  let parts := allParts topics in
  if decide (length (ConsumerGroup.members g) = 0%nat)
  then Some (ConsumerGroup.set_assignments g ∅)
  else
    asg ← assign_from (ConsumerGroup.members g) 0 parts ∅;
    Some (ConsumerGroup.set_assignments g asg).

(** [g.offsets[key] || 0] *)
Definition committed (g : ConsumerGroup.t) (key : string) : Z :=
  default 0 (ConsumerGroup.offsets g !! key).

Definition computeLagFor (g : ConsumerGroup.t) (t : Topic.t) (p : Partition.t) : Z :=
  Partition.endOffset p - committed g (partitionKey (Topic.name t) (Partition.id p)).

(** The body of the inner [forEach] of [consumeOnce] for partition [p] of
    the topic named [tname], acting on the copied group [target]. *)
Definition consume_partition (tname : string) (p : Partition.t)
    (target : ConsumerGroup.t) : ConsumerGroup.t :=
  let pk := partitionKey tname (Partition.id p) in
  let assigned := ConsumerGroup.assignments target !! pk in
  if negb (JS.truthy assigned) then target
  else
    let c := committed target pk in
    if c <? Partition.endOffset p
    then ConsumerGroup.set_offsets target (<[pk := c + 1]> (ConsumerGroup.offsets target))
    else target.

Definition consume_topic (t : Topic.t) (target : ConsumerGroup.t) : ConsumerGroup.t :=
  foldl (λ tg p, consume_partition (Topic.name t) p tg) target (Topic.partitions t).

Definition consume_cluster (cluster : Cluster.t) (target : ConsumerGroup.t)
    : ConsumerGroup.t :=
  foldl (λ tg t, consume_topic t tg) target (Cluster.topics cluster).

(** [consumeOnce(groupId)] over the component state [groups], [cluster];
    the result is the list handed to [setGroups] (or [groups] itself on the
    early return). *)
Definition consumeOnce (groups : list ConsumerGroup.t) (cluster : Cluster.t)
    (groupId : string) : list ConsumerGroup.t :=
  match list_find (λ x, ConsumerGroup.id x = groupId) groups with
  | None => groups
  | Some (i, g) => <[i := consume_cluster cluster g]> groups
  end.

(** [n] successive calls of [consumeOnce] on an unchanged cluster. *)
Fixpoint consume_steps (n : nat) (groups : list ConsumerGroup.t)
    (cluster : Cluster.t) (groupId : string) : list ConsumerGroup.t :=
  match n with
  | O => groups
  | S n' => consume_steps n' (consumeOnce groups cluster groupId) cluster groupId
  end.

(** ** Producer *)

(** The updater passed to [setCluster] by [produce()]. [produceTopic] and
    [produceKey] are the component state read by the closure; [rnd n] is the
    value [Math.floor(Math.random() * n)] takes in this call. [None] is the
    [TypeError] of [part.endOffset += 1] on an undefined [part]. *)
Definition produce (rnd : Z → Z) (produceTopic produceKey : string)
    (prev : Cluster.t) : option Cluster.t :=
  let next := cloneCluster prev in
  match list_find (λ x, Topic.name x = produceTopic) (Cluster.topics next) with
  | None => Some prev
  | Some (ti, t) =>
      let pCount := Z.of_nat (length (Topic.partitions t)) in
      let pid :=
        if JS.truthy_string produceKey then hashKeyToPartition produceKey pCount
        else Some (rnd pCount) in
      z ← pid;
      if decide (0 <= z) then
        part ← Topic.partitions t !! Z.to_nat z;
        let part' := Partition.set_endOffset part (Partition.endOffset part + 1) in
        Some (Cluster.mk (Cluster.brokers next)
                (<[ti := Topic.set_partitions t
                           (<[Z.to_nat z := part']> (Topic.partitions t))]>
                   (Cluster.topics next)))
      else None
  end.

(** ** Vocabulary of the properties *)

(** The broker named [bid] is up in [c]: the membership test of [upSet],
    stated on the broker list. *)
Definition is_up (c : Cluster.t) (bid : string) : Prop :=
  ∃ b, b ∈ Cluster.brokers c ∧ Broker.id b = bid ∧ Broker.up b = true.

(** The partition at position [pi] of the topic at position [ti]. *)
Definition partition_at (c : Cluster.t) (ti pi : nat) : option Partition.t :=
  t ← Cluster.topics c !! ti; Topic.partitions t !! pi.

(** No broker of [c] has the empty string as its id. *)
Definition broker_ids_nonempty (c : Cluster.t) : Prop :=
  ∀ b, b ∈ Cluster.brokers c → Broker.id b ≠ EmptyString.

(** Every leader of [c] is taken from the partition's own replica list. *)
Definition leaders_among_replicas (c : Cluster.t) : Prop :=
  ∀ ti pi p l, partition_at c ti pi = Some p →
    Partition.leader p = Some l → l ∈ Partition.replicas p.

(** Election safety, as a property of one partition [p] read in the
    cluster [c]. *)
Definition election_safe (c : Cluster.t) (p : Partition.t) : Prop :=
  (Partition.leader p = None ↔ ∀ r, r ∈ Partition.replicas p → ¬ is_up c r)
  ∧ (∀ l, Partition.leader p = Some l → is_up c l)
  ∧ (Partition.offline p = Some true ↔ Partition.leader p = None).

(** What an election may not touch in a partition, and in a topic. *)
Definition same_partition_frame (p p' : Partition.t) : Prop :=
  Partition.id p' = Partition.id p
  ∧ Partition.topic p' = Partition.topic p
  ∧ Partition.replicas p' = Partition.replicas p
  ∧ Partition.endOffset p' = Partition.endOffset p.

Definition same_topic_frame (t t' : Topic.t) : Prop :=
  Topic.name t' = Topic.name t
  ∧ Topic.color t' = Topic.color t
  ∧ Forall2 same_partition_frame (Topic.partitions t) (Topic.partitions t').


(** The position of the first replica of [rs] that is up in [c], read as
    the outcome [o] of a fresh election: [None] when no replica is up. *)
Definition first_up (c : Cluster.t) (rs : list string) (o : option string) : Prop :=
  match o with
  | None => ∀ r, r ∈ rs → ¬ is_up c r
  | Some r =>
      ∃ i : nat, rs !! i = Some r ∧ is_up c r
        ∧ ∀ (j : nat) r', (j < i)%nat → rs !! j = Some r' → ¬ is_up c r'
  end.


(** ** Concrete clusters used below *)


(** Scenario 2 of the specification: three brokers, [b0] down. *)
Definition b0_down_cluster : Cluster.t :=
  Cluster.mk
    [Broker.mk "b0" "broker-0" false; Broker.mk "b1" "broker-1" true;
     Broker.mk "b2" "broker-2" true]
    [Topic.mk "t"
       [Partition.mk 0 "t" (Some "b0") ["b0"; "b1"; "b2"] None 0;
        Partition.mk 1 "t" (Some "b1") ["b1"; "b2"; "b0"] None 0;
        Partition.mk 2 "t" (Some "b2") ["b2"; "b0"; "b1"] None 0] "#22c55e"].

(** ** Vocabulary for the topology builder *)

(** [clamp x lo hi] as the specification uses it: [x] brought into
    [[lo, hi]]. *)
Definition clamp (x lo hi : Z) : Z :=
  if x <? lo then lo else if hi <? x then hi else x.

(** The brokers [buildCluster] creates when it does not throw. *)
Definition built_brokers (brokerCount : Z) : list Broker.t :=
  build_broker <$> seqZ 0 brokerCount.

(** What [build_partition] computes once every broker lookup succeeds:
    the replica ids of partition [p], and the partition itself. *)
Definition replica_ids (brokerCount rf p : Z) : list string :=
  (λ k, Broker.id (build_broker ((p mod brokerCount + k) mod brokerCount)))
    <$> seqZ 0 rf.

Definition built_partition (brokerCount rf : Z) (tname : string) (p : Z)
    : Partition.t :=
  Partition.mk p tname (head (replica_ids brokerCount rf p))
    (replica_ids brokerCount rf p) None 0.

(** The topic [t] is what [build_topic] makes of the configuration [cfg]. *)
Definition built_from (brokerCount : Z) (cfg : TopicConfig.t) (t : Topic.t) : Prop :=
  Topic.name t = TopicConfig.name cfg
  ∧ Topic.partitions t =
      built_partition brokerCount
        (Z.max 1 (Z.min (TopicConfig.replicationFactor cfg) brokerCount))
        (TopicConfig.name cfg)
      <$> seqZ 0 (TopicConfig.partitions cfg).

(** The replica count the builder gives a partition of [cfg]. *)
Definition replica_count_clamped (brokerCount : Z) (cfg : TopicConfig.t)
    (p : Partition.t) : Prop :=
  let n := length (Partition.replicas p) in
  let rf := TopicConfig.replicationFactor cfg in
  (1 <= n <= Z.to_nat brokerCount)%nat
  ∧ (rf < 1 → n = 1%nat)
  ∧ (brokerCount < rf → n = Z.to_nat brokerCount)
  ∧ (1 <= rf <= brokerCount → n = Z.to_nat rf).

(** ** Vocabulary for the group coordinator *)

(** The number of partitions of the enumeration [keys] that [asg] gives to
    the consumer [cid]. *)
Definition owned_by (asg : gmap string string) (cid : string) (keys : list string)
    : nat :=
  length (filter (λ pk, asg !! pk = Some cid) keys).

Definition ceil_div (p m : nat) : nat := ((p + (m - 1)) / m)%nat.

(** Round-robin assignment of the enumeration [keys] to [members]: the
    i-th partition goes to [members[i mod m]], the assigned keys are
    exactly the enumerated ones, and each member owns [⌊p/m⌋] or [⌈p/m⌉]
    of the [p] partitions. *)
Definition round_robin (members : list Consumer.t) (keys : list string)
    (asg : gmap string string) : Prop :=
  let m := length members in
  let p := length keys in
  (∀ (i : nat) pk, keys !! i = Some pk →
     ∃ c, members !! (i mod m)%nat = Some c ∧ asg !! pk = Some (Consumer.id c))
  ∧ (∀ pk, is_Some (asg !! pk) ↔ pk ∈ keys)
  ∧ (∀ c, c ∈ members →
       owned_by asg (Consumer.id c) keys = (p / m)%nat
       ∨ owned_by asg (Consumer.id c) keys = ceil_div p m).

(** Two topics with the same name, hence two partitions with one key. *)
Definition twin_topics : list Topic.t :=
  [Topic.mk "t" [Partition.mk 0 "t" (Some "b0") ["b0"] None 5] "#22c55e";
   Topic.mk "t" [Partition.mk 0 "t" (Some "b0") ["b0"] None 5] "#3b82f6"].

Definition three_partitions : list Topic.t :=
  [Topic.mk "t" [Partition.mk 0 "t" (Some "b0") ["b0"] None 5;
                 Partition.mk 1 "t" (Some "b0") ["b0"] None 0;
                 Partition.mk 2 "t" (Some "b0") ["b0"] None 1] "#22c55e"].

Definition group_c1_c2 : ConsumerGroup.t :=
  ConsumerGroup.mk "g1" [Consumer.mk "c1"; Consumer.mk "c2"] ∅ ∅.

(** Two members carrying the same id. *)
Definition group_c3_c2_c3 : ConsumerGroup.t :=
  ConsumerGroup.mk "g2" [Consumer.mk "c3"; Consumer.mk "c2"; Consumer.mk "c3"] ∅ ∅.

(** The partition key [pk] has an assigned consumer in [g]. *)
Definition has_consumer (g : ConsumerGroup.t) (pk : string) : Prop :=
  is_Some (ConsumerGroup.assignments g !! pk).

(** No key of [g] is assigned to a consumer whose id is the empty string. *)
Definition assigned_ids_nonempty (g : ConsumerGroup.t) : Prop :=
  ∀ pk a, ConsumerGroup.assignments g !! pk = Some a → a ≠ EmptyString.

(** One consume step from [g] to [g'] over the partitions of [cluster]:
    the committed offset of the key of every partition that has a consumer
    and is behind its end offset is raised by exactly 1, and no other
    committed offset changes. *)
Definition consume_step_spec (cluster : Cluster.t) (g g' : ConsumerGroup.t) : Prop :=
  (∀ ti pi t p,
     Cluster.topics cluster !! ti = Some t → Topic.partitions t !! pi = Some p →
     let pk := partitionKey (Topic.name t) (Partition.id p) in
     (has_consumer g pk → committed g pk < Partition.endOffset p →
      ConsumerGroup.offsets g' !! pk = Some (committed g pk + 1))
     ∧ (¬ has_consumer g pk ∨ Partition.endOffset p <= committed g pk →
        ConsumerGroup.offsets g' !! pk = ConsumerGroup.offsets g !! pk))
  ∧ (∀ k, k ∉ allParts (Cluster.topics cluster) →
       ConsumerGroup.offsets g' !! k = ConsumerGroup.offsets g !! k).

(** [consume_partition] as a function of the partition's key and end
    offset, the only things it reads of the partition. *)
Definition consume_key (pk : string) (e : Z) (target : ConsumerGroup.t)
    : ConsumerGroup.t :=
  if negb (JS.truthy (ConsumerGroup.assignments target !! pk)) then target
  else
    let c := committed target pk in
    if c <? e
    then ConsumerGroup.set_offsets target (<[pk := c + 1]> (ConsumerGroup.offsets target))
    else target.

(** The partitions of [topics] in enumeration order, each as its key and
    end offset. *)
Definition keyed_partitions (topics : list Topic.t) : list (string * Z) :=
  topics ≫= λ t,
    (λ p, (partitionKey (Topic.name t) (Partition.id p), Partition.endOffset p))
      <$> Topic.partitions t.

Definition consume_keys (kps : list (string * Z)) (target : ConsumerGroup.t)
    : ConsumerGroup.t :=
  foldl (λ tg kp, consume_key kp.1 kp.2 tg) target kps.

(** Scenario 5 of the specification: partition 0 with end offset 5,
    assigned, nothing committed. *)
Definition cluster_three : Cluster.t :=
  Cluster.mk [Broker.mk "b0" "broker-0" true] three_partitions.

Definition cluster_twins : Cluster.t :=
  Cluster.mk [Broker.mk "b0" "broker-0" true] twin_topics.

Definition group_assigned : ConsumerGroup.t :=
  ConsumerGroup.mk "g1" [Consumer.mk "c1"] {[ "t:p0"%string := "c1"%string ]} ∅.

(** A key assigned to a consumer whose id is the empty string. *)
Definition group_blank_consumer : ConsumerGroup.t :=
  ConsumerGroup.mk "g1" [Consumer.mk ""] {[ "t:p0"%string := EmptyString ]} ∅.

(** ** Vocabulary for the producer *)

Definition topic_exists (c : Cluster.t) (tname : string) : Prop :=
  ∃ t, t ∈ Cluster.topics c ∧ Topic.name t = tname.

(** The topic that [topics.find((x) => x.name === tname)] returns, with its
    position: the first one of that name. *)
Definition first_topic (c : Cluster.t) (tname : string) : option (nat * Topic.t) :=
  list_find (λ x, Topic.name x = tname) (Cluster.topics c).

(** [next] is [prev] with the end offset of the partition at position [pi]
    of the topic at position [ti] raised by 1, and nothing else changed. *)
Definition appended_at (prev : Cluster.t) (ti pi : nat) (next : Cluster.t) : Prop :=
  ∃ t p,
    Cluster.topics prev !! ti = Some t
    ∧ Topic.partitions t !! pi = Some p
    ∧ next =
        Cluster.mk (Cluster.brokers prev)
          (<[ti := Topic.set_partitions t
                     (<[pi := Partition.set_endOffset p (Partition.endOffset p + 1)]>
                        (Topic.partitions t))]>
             (Cluster.topics prev)).

(** The effect of [produce] on [prev]: one record appended to one
    partition of the named topic when it exists, nothing otherwise. *)
Definition produce_spec (rnd : Z → Z) (produceTopic produceKey : string)
    (prev : Cluster.t) : Prop :=
  (topic_exists prev produceTopic →
   ∃ next ti pi t,
     produce rnd produceTopic produceKey prev = Some next
     ∧ first_topic prev produceTopic = Some (ti, t)
     ∧ appended_at prev ti pi next)
  ∧ (¬ topic_exists prev produceTopic →
     produce rnd produceTopic produceKey prev = Some prev).

(** [Math.floor(Math.random() * n)] lies in [[0, n)] for [n ≥ 1], since
    [Math.random()] lies in [[0, 1)]. *)
Definition random_in_range (rnd : Z → Z) : Prop :=
  ∀ n, 1 <= n → 0 <= rnd n < n.

(** A topic without partitions, as [buildCluster] makes it from a
    configuration with 0 partitions. *)
Definition cluster_empty_topic : Cluster.t :=
  Cluster.mk [Broker.mk "b0" "broker-0" true] [Topic.mk "t" [] "#22c55e"].

(** ** The rest of the cluster engine *)

From Stdlib Require Import Ascii.

(** [partitionsOnBroker]: the partitions pushed to [res], in the order of
    the two nested loops. *)
Definition partitionsOnBroker (cluster : Cluster.t) (brokerId : string)
    : list Partition.t :=
  Cluster.topics cluster ≫= λ t,
    filter (λ p, Partition.leader p = Some brokerId
                 ∨ brokerId ∈ Partition.replicas p)
      (Topic.partitions t).

(** [toggleBroker(id)] up to [setCluster(next)]: the cluster handed to
    [setCluster]. [next.brokers.find(...)!] is undefined when no broker has
    that id, and [b.up = !b.up] then throws. *)
Definition toggleBroker (cluster : Cluster.t) (id : string) : option Cluster.t :=
  let next := cloneCluster cluster in
  ib ← list_find (λ x, Broker.id x = id) (Cluster.brokers next);
  let b' := Broker.mk (Broker.id ib.2) (Broker.name ib.2) (negb (Broker.up ib.2)) in
  Some (electLeaders
          (Cluster.mk (<[ib.1 := b']> (Cluster.brokers next)) (Cluster.topics next))).

(** [setAllUp(up)]: the cluster handed to [setCluster]. *)
Definition setAllUp (cluster : Cluster.t) (up : bool) : Cluster.t :=
  let next := cloneCluster cluster in
  electLeaders
    (Cluster.mk
       ((λ b, Broker.mk (Broker.id b) (Broker.name b) up) <$> Cluster.brokers next)
       (Cluster.topics next)).

(** [failRandomBroker()]: the cluster after the call ([cluster] itself on
    the early return). [rnd n] is the value of
    [Math.floor(Math.random() * n)] in this call. *)
Definition failRandomBroker (rnd : Z → Z) (cluster : Cluster.t) : option Cluster.t :=
  let ups := filter (λ b, Broker.up b = true) (Cluster.brokers cluster) in
  if decide (length ups = 0%nat) then Some cluster
  else
    b ← JS.index ups (Some (rnd (Z.of_nat (length ups))));
    toggleBroker cluster (Broker.id b).

(** Truthiness of [cluster.brokers.find((b) => b.id === r)?.up]. *)
Definition found_up (cluster : Cluster.t) (r : string) : bool :=
  match list_find (λ b, Broker.id b = r) (Cluster.brokers cluster) with
  | Some ib => Broker.up ib.2
  | None => false
  end.

(** The in-sync replicas shown for a selected partition:
    [p.replicas.filter((r) => cluster.brokers.find((b) => b.id === r)?.up)]. *)
Definition displayed_isr (cluster : Cluster.t) (p : Partition.t) : list string :=
  filter (λ r, found_up cluster r = true) (Partition.replicas p).

(** [groupLagSummary(g)]: the pair [{ totalLag, parts }]. *)
Definition groupLagSummary (cluster : Cluster.t) (g : ConsumerGroup.t) : Z * Z :=
  foldl
    (λ acc t,
       foldl (λ a p, (a.1 + computeLagFor g t p, a.2 + 1)) acc (Topic.partitions t))
    (0, 0) (Cluster.topics cluster).

Definition with_members (g : ConsumerGroup.t) (ms : list Consumer.t)
    : ConsumerGroup.t :=
  ConsumerGroup.mk (ConsumerGroup.id g) ms
    (ConsumerGroup.assignments g) (ConsumerGroup.offsets g).

(** The "reset offsets" handler of the group [gid]:
    [gs.map(gg => gg.id === g.id ? {...gg, offsets: {}} : gg)]. *)
Definition resetOffsets (gs : list ConsumerGroup.t) (gid : string)
    : list ConsumerGroup.t :=
  (λ gg, if decide (ConsumerGroup.id gg = gid)
         then ConsumerGroup.set_offsets gg ∅ else gg) <$> gs.

(** The "add consumer" handler: the new member is
    [{ id: `c${gg.members.length + 1}` }]. *)
Definition addConsumer (gs : list ConsumerGroup.t) (gid : string)
    : list ConsumerGroup.t :=
  (λ gg, if decide (ConsumerGroup.id gg = gid)
         then with_members gg
                (ConsumerGroup.members gg
                 ++ [Consumer.mk
                       ("c" +:+ pretty (Z.of_nat (length (ConsumerGroup.members gg)) + 1))])
         else gg) <$> gs.

(** The "remove" handler: [members: gg.members.slice(0, -1)]. *)
Definition removeConsumer (gs : list ConsumerGroup.t) (gid : string)
    : list ConsumerGroup.t :=
  (λ gg, if decide (ConsumerGroup.id gg = gid)
         then with_members gg
                (take (length (ConsumerGroup.members gg) - 1)
                   (ConsumerGroup.members gg))
         else gg) <$> gs.

(** The rebalance effect: every group of the copied list is rebalanced
    over the topics of the cluster; a throw in one aborts the update. *)
Definition rebalanceAll (gs : list ConsumerGroup.t) (topics : list Topic.t)
    : option (list ConsumerGroup.t) :=
  mapM (λ g, rebalanceGroup g topics) gs.

(** ** Vocabulary for the rest of the engine *)

(** The character [c] occurs in [s]. *)
Fixpoint occurs (c : ascii) (s : string) : Prop :=
  match s with
  | EmptyString => False
  | String a s' => a = c ∨ occurs c s'
  end.

(** The member ids [c1, c2, ..., cn], as the "add consumer" handler
    names them from an empty group. *)
Definition canonical_ids (n : nat) : list string :=
  (λ i : nat, "c" +:+ pretty (Z.of_nat i + 1)) <$> seq 0 n.

(** What the clusters built and maintained by the engine keep true. *)
Definition broker_ids_distinct (c : Cluster.t) : Prop :=
  NoDup (Broker.id <$> Cluster.brokers c).

Definition replicas_are_brokers (c : Cluster.t) : Prop :=
  ∀ ti pi p r, partition_at c ti pi = Some p → r ∈ Partition.replicas p →
    ∃ b, b ∈ Cluster.brokers c ∧ Broker.id b = r.

Definition replicas_distinct (c : Cluster.t) : Prop :=
  ∀ ti pi p, partition_at c ti pi = Some p →
    Partition.replicas p ≠ [] ∧ NoDup (Partition.replicas p).

Definition well_formed (c : Cluster.t) : Prop :=
  broker_ids_nonempty c
  ∧ broker_ids_distinct c
  ∧ leaders_among_replicas c
  ∧ replicas_are_brokers c
  ∧ replicas_distinct c.

(** The broker [b] with its [up] flag negated, as [b.up = !b.up] leaves it. *)
Definition flip_up (b : Broker.t) : Broker.t :=
  Broker.mk (Broker.id b) (Broker.name b) (negb (Broker.up b)).

(** The number of brokers of [c] that are up. *)
Definition up_count (c : Cluster.t) : nat :=
  length (filter (λ b, Broker.up b = true) (Cluster.brokers c)).

(** The sum of the end offsets of all partitions of [topics]. *)
Definition total_end_offset (topics : list Topic.t) : Z :=
  foldr Z.add 0 ((keyed_partitions topics).*2).

(** The number of partitions of [topics] whose key is [k]. *)
Definition key_count (topics : list Topic.t) (k : string) : nat :=
  length (filter (λ x, x = k) (allParts topics)).

(** The committed offsets of [g] summed over the enumeration of the
    partitions of [topics]. *)
Definition total_committed (g : ConsumerGroup.t) (topics : list Topic.t) : Z :=
  foldr Z.add 0 (committed g <$> allParts topics).

(** What [rebalanceGroup] makes of [g] over [topics], whatever they are. *)
Definition rebalanced (topics : list Topic.t) (g g' : ConsumerGroup.t) : Prop :=
  ConsumerGroup.id g' = ConsumerGroup.id g
  ∧ ConsumerGroup.members g' = ConsumerGroup.members g
  ∧ ConsumerGroup.offsets g' = ConsumerGroup.offsets g
  ∧ (∀ pk cid, ConsumerGroup.assignments g' !! pk = Some cid →
       pk ∈ allParts topics
       ∧ ∃ c, c ∈ ConsumerGroup.members g ∧ Consumer.id c = cid)
  ∧ (ConsumerGroup.members g ≠ [] →
     ∀ pk, pk ∈ allParts topics → is_Some (ConsumerGroup.assignments g' !! pk)).

(** One step of the loop of [groupLagSummary], on a partition given by its
    key and end offset. *)
Definition lag_step (g : ConsumerGroup.t) (a : Z * Z) (kp : string * Z) : Z * Z :=
  (a.1 + (kp.2 - committed g kp.1), a.2 + 1).

(** ** The clusters the component can hold *)

(** The cluster state starts from [buildCluster] on at least one broker
    (the broker-count input is kept within [[1, 12]]) and moves by the
    election effect and the broker and producer commands. *)
Inductive reachable : Cluster.t → Prop :=
  | reach_build brokerCount topicsConfig c :
      1 <= brokerCount →
      buildCluster brokerCount topicsConfig = Some c →
      reachable c
  | reach_elect c :
      reachable c → reachable (electLeaders c)
  | reach_toggle c id c' :
      reachable c → toggleBroker c id = Some c' → reachable c'
  | reach_setAllUp c up :
      reachable c → reachable (setAllUp c up)
  | reach_fail rnd c c' :
      reachable c → failRandomBroker rnd c = Some c' → reachable c'
  | reach_produce rnd produceTopic produceKey c c' :
      reachable c → produce rnd produceTopic produceKey c = Some c' →
      reachable c'.

(** Every partition of [c] is election-safe. *)
Definition all_safe (c : Cluster.t) : Prop :=
  ∀ ti pi p, partition_at c ti pi = Some p → election_safe c p.

(** ** Topic configuration commands *)

(** [arr.filter((_, i) => keep(i))], the position starting at [i]. *)
Fixpoint filter_index {A} (keep : nat → bool) (i : nat) (l : list A) : list A :=
  match l with
  | [] => []
  | x :: rest =>
      if keep i then x :: filter_index keep (S i) rest
      else filter_index keep (S i) rest
  end.

(** The updater of [addTopic()]:
    [[...prev, { name: `topic_${prev.length}`, partitions: 6, replicationFactor: 2 }]]. *)
Definition addTopic (prev : list TopicConfig.t) : list TopicConfig.t :=
  prev ++ [TopicConfig.mk ("topic_" +:+ pretty (Z.of_nat (length prev))) 6 2].

(** The updater of [removeTopic(idx)]: [prev.filter((_, i) => i !== idx)]. *)
Definition removeTopic (prev : list TopicConfig.t) (idx : nat) : list TopicConfig.t :=
  filter_index (λ i, negb (i =? idx)%nat) 0 prev.
(** * Properties *)

(** Case analysis on membership in a list that is given explicitly. *)
Ltac elem_of_cases H :=
  cbn in H;
  repeat (apply elem_of_cons in H as [->|H]);
  try (apply not_elem_of_nil in H; destruct H).

(** ** Partition router *)

Section Hash.

Lemma toInt32_wrap x : JS.toInt32 x = wrap_signed32 x.
Proof.
  unfold JS.toInt32, wrap_signed32.
  change (2 ^ 32) with 4294967296. change (2 ^ 31) with 2147483648.
  destruct (Z.leb_spec 2147483648 (x mod 4294967296));
    Z.div_mod_to_equations; lia.
Qed.

Lemma wrap_signed32_range x : - 2 ^ 31 <= wrap_signed32 x < 2 ^ 31.
Proof.
  unfold wrap_signed32.
  change (2 ^ 32) with 4294967296. change (2 ^ 31) with 2147483648.
  Z.div_mod_to_equations; lia.
Qed.

Lemma hash_step_wrap h c : hash_step h c = wrap_signed32 (h * 31 + c).
Proof.
  unfold hash_step, JS.bitor.
  replace (JS.toInt32 0) with 0 by reflexivity.
  by rewrite Z.lor_0_r, toInt32_wrap.
Qed.

Lemma hash_fold_rolling cs : ∀ h, foldl hash_step h cs = rolling_hash_from h cs.
Proof.
  induction cs as [|c cs IH]; intros h; simpl; [done|].
  by rewrite IH, hash_step_wrap.
Qed.

Lemma rolling_hash_from_range cs :
  ∀ h, - 2 ^ 31 <= h < 2 ^ 31 → - 2 ^ 31 <= rolling_hash_from h cs < 2 ^ 31.
Proof.
  induction cs as [|c cs IH]; intros h Hh; simpl; [done|].
  apply IH, wrap_signed32_range.
Qed.

(** The loop of the code computes the rolling hash, on every sequence of
    code units. *)
Lemma hash_partition_rolling cs n :
  1 <= n → hash_partition cs n = Some (Z.abs (rolling_hash_from 0 cs) mod n).
Proof.
  intros Hn. unfold hash_partition, hash_units, JS.rem.
  rewrite hash_fold_rolling. case_decide; [lia|].
  f_equal. apply Z.rem_mod_nonneg; lia.
Qed.

Lemma hashKeyToPartition_mod key n :
  1 <= n → hashKeyToPartition key n = Some (Z.abs (rolling_hash key) mod n).
Proof. apply hash_partition_rolling. Qed.

End Hash.

(** C4. For every key (the empty one included) and every partition count
    [n ≥ 1], [hashKeyToPartition key n] is [Math.abs(h) mod n], where [h] is
    the rolling hash [h = h*31 + charCode] wrapped to signed 32 bits after
    every step; the result lies in [[0, n)], and two calls on the same key
    and count agree. *)
Theorem hashKeyToPartition_rolling_hash (key : string) (n : Z) :
  1 <= n →
  hashKeyToPartition key n = Some (Z.abs (rolling_hash key) mod n)
  ∧ - 2 ^ 31 <= rolling_hash key < 2 ^ 31
  ∧ (∀ r, hashKeyToPartition key n = Some r → 0 <= r < n)
  ∧ (∀ r1 r2, hashKeyToPartition key n = Some r1 →
       hashKeyToPartition key n = Some r2 → r1 = r2).
Proof.
  intros Hn.
  pose proof (hashKeyToPartition_mod key n Hn) as Heq.
  split; [exact Heq|]. split.
  - apply rolling_hash_from_range. lia.
  - split.
    + intros r Hr. rewrite Heq in Hr. injection Hr as <-.
      apply Z.mod_pos_bound. lia.
    + intros r1 r2 H1 H2. congruence.
Qed.

Lemma hashKeyToPartition_rolling_hash_witness :
  hashKeyToPartition "user-42" 6 = Some 4
  ∧ rolling_hash "user-42" = -147182656.
Proof.
  destruct (hashKeyToPartition_rolling_hash "user-42" 6 ltac:(lia)) as (H & _).
  split; [rewrite H|]; vm_compute; reflexivity.
Defined.

(** ** Leader election *)

Section Election.

Lemma elem_of_upSet c bid : bid ∈ upSet c ↔ is_up c bid.
Proof.
  unfold upSet, is_up. rewrite elem_of_list_to_set, list_elem_of_fmap.
  split.
  - intros (b & -> & Hb). apply list_elem_of_filter in Hb as [Hup Hin]. eauto.
  - intros (b & Hin & <- & Hup). exists b. split; [done|].
    by apply list_elem_of_filter.
Qed.



Lemma partition_at_elect c ti pi :
  partition_at (electLeaders c) ti pi
  = elect_partition (upSet c) <$> partition_at c ti pi.
Proof.
  unfold partition_at, electLeaders; simpl.
  rewrite list_lookup_fmap.
  destruct (Cluster.topics c !! ti) as [t|]; simpl; [|done].
  by rewrite list_lookup_fmap.
Qed.

(** The first element of a filtered list is the first element of the
    list that passes the filter. *)
Lemma head_filter_None {A} (P : A → Prop) `{∀ x, Decision (P x)} (l : list A) :
  head (filter P l) = None ↔ ∀ x, x ∈ l → ¬ P x.
Proof.
  rewrite head_None. split.
  - intros Hnil x Hx HP.
    assert (Hin : x ∈ filter P l) by by apply list_elem_of_filter.
    rewrite Hnil in Hin. by apply not_elem_of_nil in Hin.
  - intros Hall. destruct (filter P l) as [|y l'] eqn:E; [done|].
    assert (Hy : y ∈ filter P l) by (rewrite E; left).
    apply list_elem_of_filter in Hy as [HP Hy]. by destruct (Hall y).
Qed.

Lemma head_filter_Some {A} (P : A → Prop) `{∀ x, Decision (P x)} (l : list A) r :
  head (filter P l) = Some r →
  ∃ i : nat, l !! i = Some r ∧ P r
    ∧ ∀ (j : nat) y, (j < i)%nat → l !! j = Some y → ¬ P y.
Proof.
  induction l as [|x l IH]; [done|].
  rewrite filter_cons. destruct (decide (P x)) as [HP|HP]; simpl.
  - intros [= ->]. exists 0%nat. repeat split; [done|]. intros; lia.
  - intros Hh. destruct (IH Hh) as (i & Hi & Hr & Hlt).
    exists (S i). repeat split; [done..|].
    intros [|j] y Hj Hy; simpl in Hy; [by injection Hy as <-|].
    apply (Hlt j); [lia|done].
Qed.

Lemma alive_head_first_up c p :
  first_up c (Partition.replicas p) (head (aliveReplicas (upSet c) p)).
Proof.
  unfold aliveReplicas.
  destruct (head _) as [r|] eqn:E; simpl.
  - apply head_filter_Some in E as (i & Hi & Hr & Hlt).
    exists i. repeat split; [done|by apply elem_of_upSet|].
    intros j r' Hj Hr' Hup. apply (Hlt j r'); [done..|by apply elem_of_upSet].
  - intros r Hr Hup. rewrite head_filter_None in E.
    apply (E r Hr). by apply elem_of_upSet.
Qed.

Lemma hasLeaderAlive_true ups p :
  hasLeaderAlive ups p = true ↔
  ∃ l, Partition.leader p = Some l ∧ l ≠ EmptyString ∧ l ∈ ups.
Proof.
  unfold hasLeaderAlive, JS.truthy_string.
  destruct (Partition.leader p) as [l|].
  - rewrite andb_true_iff, !bool_decide_eq_true. split.
    + intros [Hne Hin]. eauto.
    + by intros (l' & [= <-] & Hne & Hin).
  - split; [done|]. by intros (l' & Hl' & _).
Qed.

Lemma is_up_nonempty c bid : broker_ids_nonempty c → is_up c bid → bid ≠ EmptyString.
Proof. intros Hne (b & Hb & <- & _). by apply Hne. Qed.

(** The leader chosen by an election is never a broker that is down. *)
Lemma elect_leader_up c p l :
  Partition.leader (elect_partition (upSet c) p) = Some l → is_up c l.
Proof.
  unfold elect_partition; simpl.
  destruct (hasLeaderAlive (upSet c) p) eqn:E; simpl.
  - apply hasLeaderAlive_true in E as (l' & Hl' & _ & Hup).
    rewrite Hl'. intros [= <-]. by apply elem_of_upSet.
  - intros Hh. pose proof (alive_head_first_up c p) as Hf.
    rewrite Hh in Hf. by destruct Hf as (i & _ & Hup & _).
Qed.

(** Electing twice in a row with the same brokers elects the same. *)
Lemma elect_partition_idempotent ups p :
  elect_partition ups (elect_partition ups p) = elect_partition ups p.
Proof.
  set (p1 := elect_partition ups p).
  assert (HL : (if negb (hasLeaderAlive ups p1)
                then head (aliveReplicas ups p1)
                else Partition.leader p1) = Partition.leader p1).
  { destruct (hasLeaderAlive ups p1) eqn:E2; simpl; [done|].
    subst p1. unfold elect_partition in *; simpl in *.
    destruct (hasLeaderAlive ups p) eqn:E1; simpl in *; [|done].
    unfold hasLeaderAlive in *; simpl in *. congruence. }
  unfold elect_partition at 1. cbv zeta. rewrite HL. by subst p1.
Qed.

End Election.

(** C9. [electLeaders] is idempotent: a second run on the outcome of a
    first one, the brokers being the same, changes no leader and no
    [offline] flag (it changes nothing at all). *)
Theorem electLeaders_idempotent (c : Cluster.t) :
  electLeaders (electLeaders c) = electLeaders c
  ∧ ∀ ti pi p1 p2,
      partition_at (electLeaders c) ti pi = Some p1 →
      partition_at (electLeaders (electLeaders c)) ti pi = Some p2 →
      Partition.leader p2 = Partition.leader p1
      ∧ Partition.offline p2 = Partition.offline p1.
Proof.
  assert (Hidem : electLeaders (electLeaders c) = electLeaders c).
  { unfold electLeaders at 1 3. f_equal.
    change (upSet (electLeaders c)) with (upSet c).
    unfold electLeaders. simpl. rewrite <- list_fmap_compose.
    apply list_fmap_ext. intros _ t _. simpl.
    unfold elect_topic, Topic.set_partitions. simpl. f_equal.
    rewrite <- list_fmap_compose. apply list_fmap_ext. intros _ p _.
    apply elect_partition_idempotent. }
  split; [exact Hidem|].
  intros ti pi p1 p2 H1 H2. rewrite Hidem, H1 in H2. by injection H2 as <-.
Qed.

(** C10. [electLeaders] writes only the [leader] and [offline] fields: the
    brokers are the same, the topics are the same in number, order, name
    and colour, and their partitions are the same in number and order with
    the same id, topic name, replica list and end offset. *)
Theorem electLeaders_frame (c : Cluster.t) :
  Cluster.brokers (electLeaders c) = Cluster.brokers c
  ∧ Forall2 same_topic_frame (Cluster.topics c) (Cluster.topics (electLeaders c)).
Proof.
  split; [done|]. simpl.
  apply Forall2_fmap_r, Forall_Forall2_diag, Forall_forall. intros t _.
  repeat split.
  simpl. apply Forall2_fmap_r, Forall_Forall2_diag, Forall_forall. intros p _.
  by repeat split.
Qed.

(** ** Topology builder *)

Section Builder.

Variable brokerCount : Z.
Hypothesis brokerCount_pos : 1 <= brokerCount.

Let brokers := built_brokers brokerCount.

(** [Array.from] with a callback that does not throw. *)
Lemma array_from_pure {A} n (f : Z → A) :
  JS.array_from n (λ i, Some (f i))
  = if decide (2 ^ 32 <= n) then None else Some (f <$> seqZ 0 n).
Proof using Type.
  unfold JS.array_from. case_decide; [done|].
  apply mapM_Some_2, Forall2_fmap_r, Forall_Forall2_diag, Forall_forall.
  done.
Qed.

Lemma array_from_Some {A} n (f : Z → option A) l :
  JS.array_from n f = Some l ↔ n < 2 ^ 32 ∧ mapM f (seqZ 0 n) = Some l.
Proof using Type.
  unfold JS.array_from. case_decide as Hn.
  - split; [done|]. intros [Hlt _]. lia.
  - split; [intros Hrun; split; [lia|done]|by intros [_ Hrun]].
Qed.

Lemma brokers_lookup i :
  0 <= i < brokerCount → brokers !! Z.to_nat i = Some (build_broker i).
Proof using Type.
  intros Hi. unfold brokers, built_brokers.
  rewrite list_lookup_fmap, lookup_seqZ_lt by lia.
  simpl. do 2 f_equal. lia.
Qed.

Lemma build_partition_Some rf tname p :
  0 <= p → rf < 2 ^ 32 →
  build_partition brokers brokerCount rf tname p
  = Some (built_partition brokerCount rf tname p).
Proof using brokerCount_pos.
  intros Hp Hrf. unfold build_partition, built_partition, replica_ids.
  rewrite array_from_pure. case_decide; [lia|]. simpl.
  unfold JS.rem at 1. case_decide; [lia|]. simpl.
  rewrite Z.rem_mod_nonneg by lia.
  erewrite mapM_Some_2; [reflexivity|].
  apply Forall2_fmap, Forall_Forall2_diag, Forall_forall.
  intros k Hk. apply elem_of_seqZ in Hk.
  assert (0 <= p mod brokerCount < brokerCount) by (apply Z.mod_pos_bound; lia).
  unfold JS.rem. case_decide; [lia|]. simpl.
  rewrite Z.rem_mod_nonneg by lia.
  assert (0 <= (p mod brokerCount + k) mod brokerCount < brokerCount)
    by (apply Z.mod_pos_bound; lia).
  case_decide; [|lia]. by rewrite brokers_lookup.
Qed.

(** A topic is built unless its partition count reaches [2^32]. *)
Lemma build_topic_Some idx cfg :
  brokerCount < 2 ^ 32 → TopicConfig.partitions cfg < 2 ^ 32 →
  ∃ t, build_topic brokers brokerCount idx cfg = Some t
       ∧ built_from brokerCount cfg t.
Proof using brokerCount_pos.
  intros Hbc Hparts. unfold build_topic.
  assert (Hrun : JS.array_from (TopicConfig.partitions cfg)
            (build_partition brokers brokerCount
               (Z.max 1 (Z.min (TopicConfig.replicationFactor cfg) brokerCount))
               (TopicConfig.name cfg))
          = Some (built_partition brokerCount
                    (Z.max 1 (Z.min (TopicConfig.replicationFactor cfg) brokerCount))
                    (TopicConfig.name cfg)
                  <$> seqZ 0 (TopicConfig.partitions cfg))).
  { apply array_from_Some. split; [done|].
    apply mapM_Some_2, Forall2_fmap_r, Forall_Forall2_diag, Forall_forall.
    intros p Hp. apply elem_of_seqZ in Hp.
    apply build_partition_Some; lia. }
  rewrite Hrun. simpl. eexists. split; [reflexivity|]. split; reflexivity.
Qed.

Lemma build_topic_None idx cfg :
  2 ^ 32 <= TopicConfig.partitions cfg →
  build_topic brokers brokerCount idx cfg = None.
Proof using Type.
  intros Hparts. unfold build_topic, JS.array_from.
  by rewrite decide_True.
Qed.

Lemma build_topics_Some cfgs :
  brokerCount < 2 ^ 32 →
  Forall (λ cfg, TopicConfig.partitions cfg < 2 ^ 32) cfgs →
  ∀ idx, ∃ ts, build_topics brokers brokerCount idx cfgs = Some ts
               ∧ Forall2 (built_from brokerCount) cfgs ts.
Proof using brokerCount_pos.
  intros Hbc. induction 1 as [|cfg cfgs Hcfg _ IH]; intros idx; simpl.
  - exists []. by split.
  - destruct (build_topic_Some idx cfg Hbc Hcfg) as (t & -> & Ht).
    destruct (IH (S idx)) as (ts & -> & Hts). simpl.
    exists (t :: ts). split; [done|]. by constructor.
Qed.

Lemma build_topics_None cfgs :
  Exists (λ cfg, 2 ^ 32 <= TopicConfig.partitions cfg) cfgs →
  ∀ idx, build_topics brokers brokerCount idx cfgs = None.
Proof using Type.
  induction 1 as [cfg cfgs Hcfg|cfg cfgs _ IH]; intros idx; simpl.
  - by rewrite build_topic_None.
  - rewrite IH. by destruct (build_topic _ _ _ _).
Qed.

Lemma too_many_or_not (cfgs : list TopicConfig.t) :
  Forall (λ cfg, TopicConfig.partitions cfg < 2 ^ 32) cfgs
  ∨ Exists (λ cfg, 2 ^ 32 <= TopicConfig.partitions cfg) cfgs.
Proof using Type.
  induction cfgs as [|cfg cfgs [IH|IH]]; [left; constructor| |right; by right].
  destruct (decide (TopicConfig.partitions cfg < 2 ^ 32)).
  - left. by constructor.
  - right. left. lia.
Qed.

(** On fewer than [2^32] brokers the builder throws exactly when a
    partition count reaches [2^32]. *)
Lemma buildCluster_Some cfgs :
  brokerCount < 2 ^ 32 →
  Forall (λ cfg, TopicConfig.partitions cfg < 2 ^ 32) cfgs →
  ∃ ts, buildCluster brokerCount cfgs = Some (Cluster.mk brokers ts)
        ∧ Forall2 (built_from brokerCount) cfgs ts.
Proof using brokerCount_pos.
  intros Hbc Hcfgs. unfold buildCluster. rewrite array_from_pure.
  case_decide; [lia|]. simpl. fold (built_brokers brokerCount). fold brokers.
  destruct (build_topics_Some cfgs Hbc Hcfgs 0) as (ts & -> & Hts). simpl. eauto.
Qed.

Lemma buildCluster_None cfgs :
  brokerCount < 2 ^ 32 →
  buildCluster brokerCount cfgs = None
  ↔ Exists (λ cfg, 2 ^ 32 <= TopicConfig.partitions cfg) cfgs.
Proof using brokerCount_pos.
  intros Hbc. split.
  - intros Hnone. destruct (too_many_or_not cfgs) as [Hall|Hex]; [|done].
    destruct (buildCluster_Some cfgs Hbc Hall) as (ts & Hc & _). congruence.
  - intros Hex. unfold buildCluster. rewrite array_from_pure.
    case_decide; [done|]. simpl. fold (built_brokers brokerCount). fold brokers.
    by rewrite build_topics_None.
Qed.

(** Whatever the builder returns is built as the closed forms say. *)
Lemma buildCluster_inv cfgs c :
  buildCluster brokerCount cfgs = Some c →
  ∃ ts, c = Cluster.mk brokers ts ∧ Forall2 (built_from brokerCount) cfgs ts.
Proof using brokerCount_pos.
  intros Hc.
  assert (Hbc : brokerCount < 2 ^ 32).
  { unfold buildCluster in Hc. rewrite array_from_pure in Hc.
    case_decide; [done|lia]. }
  destruct (too_many_or_not cfgs) as [Hall|Hex].
  - destruct (buildCluster_Some cfgs Hbc Hall) as (ts & Hc' & Hts).
    exists ts. split; [congruence|done].
  - apply (buildCluster_None cfgs Hbc) in Hex. congruence.
Qed.

Lemma build_broker_id_inj i j :
  Broker.id (build_broker i) = Broker.id (build_broker j) → i = j.
Proof using Type.
  unfold build_broker; simpl. intros [= H]. by apply (inj pretty).
Qed.

Lemma mod_wrap_once x :
  0 <= x < 2 * brokerCount →
  x mod brokerCount = if x <? brokerCount then x else x - brokerCount.
Proof using brokerCount_pos.
  intros Hx. destruct (Z.ltb_spec x brokerCount).
  - apply Z.mod_small. lia.
  - symmetry. apply (Z.mod_unique_pos _ _ 1). all: lia.
Qed.

Lemma replica_ids_length rf p : length (replica_ids brokerCount rf p) = Z.to_nat rf.
Proof using Type. unfold replica_ids. by rewrite length_fmap, length_seqZ. Qed.

(** Up to [brokerCount] consecutive indices, taken modulo [brokerCount],
    name pairwise distinct brokers. *)
Lemma replica_ids_NoDup rf p :
  rf <= brokerCount → NoDup (replica_ids brokerCount rf p).
Proof using brokerCount_pos.
  intros Hrf. unfold replica_ids.
  apply NoDup_fmap_2_strong; [|apply NoDup_seqZ].
  intros k1 k2 H1 H2 Heq. apply elem_of_seqZ in H1, H2.
  apply build_broker_id_inj in Heq.
  assert (Hm : 0 <= p mod brokerCount < brokerCount)
    by (apply Z.mod_pos_bound; lia).
  revert Heq. generalize dependent (p mod brokerCount). intros l Hl Heq.
  rewrite (mod_wrap_once (l + k1)), (mod_wrap_once (l + k2)) in Heq by lia.
  repeat case_match; lia.
Qed.

Lemma replica_ids_head rf p :
  1 <= rf → 0 <= p →
  head (replica_ids brokerCount rf p)
  = Some (Broker.id (build_broker (p mod brokerCount))).
Proof using brokerCount_pos.
  intros Hrf Hp. unfold replica_ids. rewrite seqZ_cons by lia. simpl.
  rewrite Z.add_0_r, Z.mod_mod by lia. done.
Qed.

End Builder.

Lemma clamp_max_min rf brokerCount :
  1 <= brokerCount → Z.max 1 (Z.min rf brokerCount) = clamp rf 1 brokerCount.
Proof. intros H. unfold clamp. repeat case_match; lia. Qed.

(** C2. For every [brokerCount ≥ 1] and every list of topic
    configurations, every cluster [buildCluster] returns has one topic for
    each configuration and [max(0, partitions)] partitions in each; the
    partition at position [pi] has id [pi], exactly
    [clamp(replicationFactor, 1, brokerCount)] replicas with pairwise
    distinct ids, its leader is [replicas[0]], its end offset is 0, and
    [replicas[0]] is the id of the broker at index [pi mod brokerCount].
    And [buildCluster] does return when [brokerCount] and every partition
    count are below the array-length limit [2^32]. *)
Theorem buildCluster_replica_integrity
    (brokerCount : Z) (topicsConfig : list TopicConfig.t) :
  1 <= brokerCount →
  (brokerCount < 2 ^ 32 →
   Forall (λ cfg, TopicConfig.partitions cfg < 2 ^ 32) topicsConfig →
   ∃ c, buildCluster brokerCount topicsConfig = Some c)
  ∧ ∀ c, buildCluster brokerCount topicsConfig = Some c →
      length (Cluster.topics c) = length topicsConfig
      ∧ ∀ ti cfg, topicsConfig !! ti = Some cfg →
          ∃ t, Cluster.topics c !! ti = Some t
            ∧ length (Topic.partitions t) = Z.to_nat (TopicConfig.partitions cfg)
            ∧ ∀ pi p, Topic.partitions t !! pi = Some p →
                Partition.id p = Z.of_nat pi
                ∧ length (Partition.replicas p)
                  = Z.to_nat (clamp (TopicConfig.replicationFactor cfg) 1 brokerCount)
                ∧ NoDup (Partition.replicas p)
                ∧ Partition.leader p = Partition.replicas p !! 0%nat
                ∧ Partition.endOffset p = 0
                ∧ ∃ b, Cluster.brokers c !! Z.to_nat (Z.of_nat pi mod brokerCount)
                       = Some b
                       ∧ Partition.replicas p !! 0%nat = Some (Broker.id b).
Proof.
  intros Hbc. split.
  { intros Hlim Hcfgs.
    destruct (buildCluster_Some brokerCount Hbc topicsConfig Hlim Hcfgs)
      as (ts & Hc & _). eauto. }
  intros c Hc.
  destruct (buildCluster_inv brokerCount Hbc topicsConfig c Hc) as (ts & -> & Hts).
  simpl. split; [symmetry; by eapply Forall2_length|].
  intros ti cfg Hcfg.
  destruct (Forall2_lookup_l _ _ _ _ _ Hts Hcfg) as (t & Ht & Hname & Hparts).
  exists t. split; [done|]. rewrite Hparts.
  split; [by rewrite length_fmap, length_seqZ|].
  intros pi p Hp. rewrite list_lookup_fmap in Hp.
  destruct (seqZ 0 (TopicConfig.partitions cfg) !! pi) as [z|] eqn:Hz; [|done].
  apply lookup_seqZ in Hz as [-> Hlt]. injection Hp as <-. simpl.
  rewrite clamp_max_min by done.
  set (rf := clamp (TopicConfig.replicationFactor cfg) 1 brokerCount).
  assert (Hrf : 1 <= rf <= brokerCount) by (unfold rf, clamp; repeat case_match; lia).
  split; [done|]. split; [apply replica_ids_length|].
  split; [apply replica_ids_NoDup; lia|].
  split; [apply head_lookup|]. split; [done|].
  exists (build_broker (Z.of_nat pi mod brokerCount)). split.
  - apply brokers_lookup. apply Z.mod_pos_bound. lia.
  - rewrite <- head_lookup. apply replica_ids_head; lia.
Qed.

Lemma buildCluster_replica_integrity_witness :
  ∃ c, buildCluster 3 [TopicConfig.mk "t" 3 2] = Some c
       ∧ length (Cluster.topics c) = 1%nat.
Proof.
  destruct (buildCluster_replica_integrity 3 [TopicConfig.mk "t" 3 2] ltac:(lia))
    as [Hret Hall].
  destruct Hret as [c Hc]; [lia|repeat constructor; simpl; lia|].
  exists c. split; [exact Hc|]. by destruct (Hall c Hc) as [Hlen _].
Defined.

(** C8 fails as stated: [buildCluster] does not bring the partition count
    up to 1 (a configuration with 0 partitions gives a topic without
    partitions); with no broker it throws on the first partition; and a
    partition count of [2^32] is rejected with a [RangeError]. *)
Lemma buildCluster_clamping_counterexample :
  (∃ c t, buildCluster 3 [TopicConfig.mk "t" 0 2] = Some c
          ∧ Cluster.topics c !! 0%nat = Some t
          ∧ Topic.partitions t = [])
  ∧ buildCluster 0 [TopicConfig.mk "t" 1 1] = None
  ∧ buildCluster 3 [TopicConfig.mk "t" 4294967296 2] = None.
Proof.
  split; [do 2 eexists; repeat split|]. split; [reflexivity|].
  apply buildCluster_None; [lia..|]. left. simpl. lia.
Qed.

(** C8, amended. For [1 ≤ brokerCount < 2^32], [buildCluster] rejects its
    input exactly when some partition count is [2^32] or more. On every
    cluster it returns, a replication factor below 1 has given 1 replica
    and one above [brokerCount] has given [brokerCount] replicas, so every
    partition has between 1 and [brokerCount] replicas. The partition
    count is not raised to 1: the topic has [max(0, partitions)]
    partitions. *)
Theorem buildCluster_clamps_replication
    (brokerCount : Z) (topicsConfig : list TopicConfig.t) :
  1 <= brokerCount < 2 ^ 32 →
  (buildCluster brokerCount topicsConfig = None
   ↔ Exists (λ cfg, 2 ^ 32 <= TopicConfig.partitions cfg) topicsConfig)
  ∧ ∀ c, buildCluster brokerCount topicsConfig = Some c →
      Forall2
        (λ cfg t,
           Topic.name t = TopicConfig.name cfg
           ∧ length (Topic.partitions t)
             = Z.to_nat (Z.max 0 (TopicConfig.partitions cfg))
           ∧ ∀ p, p ∈ Topic.partitions t → replica_count_clamped brokerCount cfg p)
        topicsConfig (Cluster.topics c).
Proof.
  intros [Hbc Hlim]. split; [by apply buildCluster_None|].
  intros c Hc.
  destruct (buildCluster_inv brokerCount Hbc topicsConfig c Hc) as (ts & -> & Hts).
  simpl. eapply Forall2_impl; [exact Hts|].
  intros cfg t [Hname Hparts]. split; [done|]. rewrite Hparts.
  split; [rewrite length_fmap, length_seqZ; lia|].
  intros p Hp. apply list_elem_of_fmap in Hp as (z & -> & _).
  unfold replica_count_clamped. simpl. rewrite replica_ids_length.
  repeat split; lia.
Qed.

Lemma buildCluster_clamps_replication_witness :
  ∃ c, buildCluster 2 [TopicConfig.mk "t" 1 5] = Some c
       ∧ (Partition.replicas <$> partition_at c 0 0) = Some ["b0"; "b1"]%string.
Proof.
  destruct (buildCluster_clamps_replication 2 [TopicConfig.mk "t" 1 5] ltac:(lia))
    as [Hnone Hall].
  eexists. split; [reflexivity|].
  pose proof (Hall _ eq_refl) as Hcl. reflexivity.
Defined.

(** ** Group coordinator: rebalance *)

Section Rebalance.

Variable members : list Consumer.t.
Hypothesis members_nonempty : members ≠ [].

Lemma member_lookup (i : nat) : is_Some (members !! (i mod length members)%nat).
Proof using members_nonempty.
  apply lookup_lt_is_Some, Nat.mod_upper_bound.
  by destruct members.
Qed.

(** The assignment loop does not throw. *)
Lemma assign_from_Some pks :
  ∀ i asg, is_Some (assign_from members i pks asg).
Proof using members_nonempty.
  induction pks as [|pk pks IH]; intros i asg; simpl; [done|].
  destruct (member_lookup i) as [c ->]. simpl. apply IH.
Qed.

(** The keys assigned by the loop are the enumerated ones, added to
    those assigned before. *)
Lemma assign_from_dom pks :
  ∀ i asg asg', assign_from members i pks asg = Some asg' →
    ∀ pk, is_Some (asg' !! pk) ↔ pk ∈ pks ∨ is_Some (asg !! pk).
Proof using Type.
  induction pks as [|pk0 pks IH]; intros i asg asg' Hrun pk; simpl in Hrun.
  - injection Hrun as <-. rewrite elem_of_nil. tauto.
  - destruct (members !! (i mod length members)%nat) as [c|]; [|done].
    simpl in Hrun. rewrite (IH _ _ _ Hrun pk), elem_of_cons.
    destruct (decide (pk0 = pk)) as [->|Hne].
    + rewrite lookup_insert_eq. split; [auto|]. intros _. right. eauto.
    + rewrite lookup_insert_ne by done. split; [tauto|].
      intros [[->|?]|?]; [done|tauto..].
Qed.

Lemma assign_from_other pks :
  ∀ i asg asg', assign_from members i pks asg = Some asg' →
    ∀ pk, pk ∉ pks → asg' !! pk = asg !! pk.
Proof using Type.
  induction pks as [|pk0 pks IH]; intros i asg asg' Hrun pk Hpk; simpl in Hrun.
  - by injection Hrun as <-.
  - destruct (members !! (i mod length members)%nat) as [c|]; [|done].
    simpl in Hrun. apply not_elem_of_cons in Hpk as [Hne Hpk].
    rewrite (IH _ _ _ Hrun pk Hpk). by rewrite lookup_insert_ne.
Qed.

(** When the keys are pairwise distinct, the key at position [j] ends up
    with the member at position [(i + j) mod m]. *)
Lemma assign_from_lookup pks :
  NoDup pks →
  ∀ i asg asg', assign_from members i pks asg = Some asg' →
    ∀ (j : nat) pk, pks !! j = Some pk →
      ∃ c, members !! ((i + j) mod length members)%nat = Some c
           ∧ asg' !! pk = Some (Consumer.id c).
Proof using Type.
  induction 1 as [|pk0 pks Hnotin Hnd IH]; intros i asg asg' Hrun j pk Hj;
    [done|].
  simpl in Hrun.
  destruct (members !! (i mod length members)%nat) as [c|] eqn:Hc; [|done].
  simpl in Hrun. destruct j as [|j]; simpl in Hj.
  - injection Hj as <-. exists c. rewrite Nat.add_0_r. split; [done|].
    rewrite (assign_from_other _ _ _ _ Hrun pk0 Hnotin).
    apply lookup_insert_eq.
  - replace (i + S j)%nat with (S i + j)%nat by lia. by eapply IH.
Qed.

End Rebalance.

Section Counting.

(** Filtering a list by a property of its elements that is in fact a
    property of their positions counts the positions. *)
Lemma filter_length_positions {A} (P : A → Prop) `{∀ x, Decision (P x)}
    (Q : nat → Prop) `{∀ i, Decision (Q i)} (l : list A) :
  ∀ start : nat,
    (∀ (i : nat) x, l !! i = Some x → (P x ↔ Q (start + i)%nat)) →
    length (filter P l) = length (filter Q (seq start (length l))).
Proof.
  induction l as [|x l IH]; intros start HPQ; [done|].
  simpl seq. rewrite !filter_cons.
  assert (Hx : P x ↔ Q start).
  { rewrite (HPQ 0%nat x eq_refl). by rewrite Nat.add_0_r. }
  assert (Hrest : length (filter P l) = length (filter Q (seq (S start) (length l)))).
  { apply IH. intros i y Hi. rewrite (HPQ (S i) y Hi).
    by replace (start + S i)%nat with (S start + i)%nat by lia. }
  destruct (decide (P x)), (decide (Q start)); simpl; tauto || lia.
Qed.

Lemma succ_div_mod (p m : nat) :
  (0 < m)%nat →
  ((p mod m + 1 < m ∧ S p / m = p / m ∧ S p mod m = p mod m + 1)
   ∨ (p mod m + 1 = m ∧ S p / m = p / m + 1 ∧ S p mod m = 0))%nat.
Proof.
  intros Hm.
  pose proof (Nat.div_mod_eq p m) as Hp.
  pose proof (Nat.mod_upper_bound p m ltac:(lia)) as Hr.
  destruct (decide (p mod m + 1 < m)%nat) as [Hlt|Hge]; [left|right].
  - split; [done|]. split; symmetry.
    + apply (Nat.div_unique _ _ _ (p mod m + 1)); lia.
    + apply (Nat.mod_unique _ _ (p / m)); lia.
  - split; [lia|]. split; symmetry.
    + apply (Nat.div_unique _ _ _ 0); lia.
    + apply (Nat.mod_unique _ _ (p / m + 1)); lia.
Qed.

(** Among the positions [0 .. p-1], those congruent to [j] modulo [m]. *)
Lemma count_residue (m j p : nat) :
  (j < m)%nat →
  length (filter (λ i : nat, (i mod m)%nat = j) (seq 0 p))
  = (p / m + (if decide (j < p mod m)%nat then 1 else 0))%nat.
Proof.
  intros Hj. induction p as [|p IH].
  - simpl. rewrite Nat.Div0.div_0_l, Nat.Div0.mod_0_l.
    case_decide; lia.
  - rewrite seq_S, filter_app, length_app, IH. simpl.
    rewrite filter_cons, filter_nil.
    destruct (succ_div_mod p m ltac:(lia)) as [(H1 & -> & ->)|(H1 & -> & ->)];
      repeat case_decide; simpl; lia.
Qed.

Lemma ceil_div_succ (p m : nat) :
  (0 < m)%nat → (0 < p mod m)%nat → ceil_div p m = S (p / m).
Proof.
  intros Hm Hr. unfold ceil_div.
  pose proof (Nat.div_mod_eq p m) as Hp.
  pose proof (Nat.mod_upper_bound p m ltac:(lia)) as Hlt.
  symmetry. apply (Nat.div_unique _ _ _ (p mod m - 1)); lia.
Qed.

End Counting.

(** With no member, [rebalanceGroup] empties the assignments, whatever the
    topics are. *)
Lemma rebalanceGroup_no_members (g : ConsumerGroup.t) (topics : list Topic.t) :
  ConsumerGroup.members g = [] →
  rebalanceGroup g topics = Some (ConsumerGroup.set_assignments g ∅).
Proof. intros Hm. unfold rebalanceGroup. by rewrite Hm. Qed.

(** C5 fails as stated, for every group and topic list: when two
    partitions share a key the later one overwrites the earlier, so the
    partition at position 0 is not with [members[0]]; and when two members
    share an id that id owns more than [⌈p/m⌉] partitions. *)
Lemma rebalance_round_robin_counterexample :
  (∃ g', rebalanceGroup group_c1_c2 twin_topics = Some g'
         ∧ ¬ round_robin (ConsumerGroup.members group_c1_c2)
               (allParts twin_topics) (ConsumerGroup.assignments g'))
  ∧ (∃ g', rebalanceGroup group_c3_c2_c3 three_partitions = Some g'
           ∧ ¬ round_robin (ConsumerGroup.members group_c3_c2_c3)
                 (allParts three_partitions) (ConsumerGroup.assignments g')).
Proof.
  split; eexists; (split; [reflexivity|]).
  - intros [Hrr _]. destruct (Hrr 0%nat "t:p0"%string eq_refl) as (c & Hc & Hasg).
    injection Hc as <-. vm_compute in Hasg. discriminate Hasg.
  - intros (_ & _ & Hown).
    destruct (Hown (Consumer.mk "c3")) as [H|H]; [left| |];
      vm_compute in H; discriminate H.
Qed.

(** C5, amended. When the partition keys of the topics are pairwise
    distinct and so are the ids of the members, [rebalanceGroup] returns
    and touches only the assignments; with no member they are empty; with
    [m ≥ 1] members the key of the i-th partition, in topic order then
    partition order, is assigned to [members[i mod m]], exactly the
    enumerated keys are assigned, and each member owns [⌊p/m⌋] or [⌈p/m⌉]
    of the [p] partitions. *)
Theorem rebalanceGroup_round_robin (g : ConsumerGroup.t) (topics : list Topic.t) :
  NoDup (allParts topics) →
  NoDup (Consumer.id <$> ConsumerGroup.members g) →
  ∃ g', rebalanceGroup g topics = Some g'
    ∧ ConsumerGroup.id g' = ConsumerGroup.id g
    ∧ ConsumerGroup.members g' = ConsumerGroup.members g
    ∧ ConsumerGroup.offsets g' = ConsumerGroup.offsets g
    ∧ (ConsumerGroup.members g = [] → ConsumerGroup.assignments g' = ∅)
    ∧ (ConsumerGroup.members g ≠ [] →
       round_robin (ConsumerGroup.members g) (allParts topics)
         (ConsumerGroup.assignments g')).
Proof.
  intros Hkeys Hids.
  destruct (decide (ConsumerGroup.members g = [])) as [Hnil|Hne].
  { rewrite (rebalanceGroup_no_members g topics Hnil). eexists.
    split; [reflexivity|]. by repeat split. }
  unfold rebalanceGroup. case_decide as Hlen.
  { by apply length_zero_iff_nil in Hlen. }
  destruct (assign_from_Some _ Hne (allParts topics) 0 ∅) as [asg Hasg].
  rewrite Hasg. simpl. eexists. split; [reflexivity|]. simpl.
  do 3 (split; [done|]). split; [done|]. intros _.
  set (ms := ConsumerGroup.members g) in *. set (keys := allParts topics) in *.
  assert (Hpos : ∀ (i : nat) pk, keys !! i = Some pk →
            ∃ c, ms !! (i mod length ms)%nat = Some c
                 ∧ asg !! pk = Some (Consumer.id c)).
  { intros i pk Hi. by apply (assign_from_lookup ms keys Hkeys 0 ∅ asg Hasg i pk). }
  split; [exact Hpos|]. split.
  - intros pk. rewrite (assign_from_dom ms keys 0 ∅ asg Hasg pk).
    rewrite lookup_empty. split; [|tauto]. intros [?|[? ?]]; done.
  - intros c Hc. apply list_elem_of_lookup_1 in Hc as [j Hj].
    assert (Hjm : (j < length ms)%nat) by by eapply lookup_lt_Some.
    unfold owned_by.
    rewrite (filter_length_positions _ (λ i : nat, (i mod length ms)%nat = j) keys 0).
    + rewrite count_residue by done. case_decide as Hr.
      * right. rewrite ceil_div_succ; lia.
      * left. lia.
    + intros i pk Hi. simpl. destruct (Hpos i pk Hi) as (c' & Hc' & ->).
      split.
      * intros [= Hid]. eapply (NoDup_lookup _ _ _ _ Hids).
        -- by rewrite list_lookup_fmap, Hc'.
        -- rewrite list_lookup_fmap, Hj. simpl. by rewrite Hid.
      * intros <-. congruence.
Qed.

Lemma rebalanceGroup_round_robin_witness :
  ∃ g', rebalanceGroup group_c1_c2 three_partitions = Some g'
    ∧ round_robin (ConsumerGroup.members group_c1_c2)
        (allParts three_partitions) (ConsumerGroup.assignments g').
Proof.
  destruct (rebalanceGroup_round_robin group_c1_c2 three_partitions)
    as (g' & Hg' & _ & _ & _ & _ & Hrr).
  - apply (bool_decide_unpack _). vm_compute. exact I.
  - apply (bool_decide_unpack _). vm_compute. exact I.
  - exists g'. split; [exact Hg'|]. by apply Hrr.
Defined.

(** ** Group coordinator: consumption *)

Section Consume.

Lemma consume_partition_key tname p target :
  consume_partition tname p target
  = consume_key (partitionKey tname (Partition.id p)) (Partition.endOffset p) target.
Proof. reflexivity. Qed.

Lemma consume_topic_keys t target :
  consume_topic t target = consume_keys (keyed_partitions [t]) target.
Proof.
  unfold consume_topic, consume_keys, keyed_partitions. simpl.
  rewrite app_nil_r. by rewrite foldl_fmap.
Qed.

Lemma consume_keys_app kps1 kps2 target :
  consume_keys (kps1 ++ kps2) target = consume_keys kps2 (consume_keys kps1 target).
Proof. unfold consume_keys. apply foldl_app. Qed.

Lemma keyed_partitions_cons t ts :
  keyed_partitions (t :: ts) = keyed_partitions [t] ++ keyed_partitions ts.
Proof. unfold keyed_partitions. simpl. by rewrite app_nil_r. Qed.

(** The two nested loops visit the partitions in enumeration order. *)
Lemma consume_cluster_keys cluster target :
  consume_cluster cluster target
  = consume_keys (keyed_partitions (Cluster.topics cluster)) target.
Proof.
  unfold consume_cluster. generalize (Cluster.topics cluster) target.
  induction l as [|t ts IH]; intros tg; [done|].
  rewrite keyed_partitions_cons, consume_keys_app, <- consume_topic_keys.
  apply IH.
Qed.

Lemma allParts_keyed topics : allParts topics = (keyed_partitions topics).*1.
Proof.
  unfold allParts, keyed_partitions.
  induction topics as [|t ts IH]; [done|].
  rewrite !bind_cons, fmap_app, IH. f_equal.
  by rewrite <- list_fmap_compose.
Qed.

Lemma keyed_partitions_lookup topics ti pi t p :
  topics !! ti = Some t → Topic.partitions t !! pi = Some p →
  (partitionKey (Topic.name t) (Partition.id p), Partition.endOffset p)
    ∈ keyed_partitions topics.
Proof.
  intros Ht Hp. unfold keyed_partitions. apply list_elem_of_bind.
  exists t. split; [|by eapply list_elem_of_lookup_2].
  apply list_elem_of_fmap. exists p. split; [done|].
  by eapply list_elem_of_lookup_2.
Qed.

(** What one visit does to the offset map. *)
Lemma consume_key_offsets pk e g k :
  ConsumerGroup.offsets (consume_key pk e g) !! k
  = if bool_decide (k = pk) && JS.truthy (ConsumerGroup.assignments g !! pk)
       && (committed g pk <? e)
    then Some (committed g pk + 1)
    else ConsumerGroup.offsets g !! k.
Proof.
  unfold consume_key.
  destruct (JS.truthy _); simpl; [|by rewrite andb_false_r].
  destruct (committed g pk <? e); simpl; [|by rewrite andb_false_r].
  rewrite andb_true_r. case_bool_decide as Hk.
  - subst k. apply lookup_insert_eq.
  - by apply lookup_insert_ne.
Qed.

Lemma consume_key_frame pk e g :
  ConsumerGroup.id (consume_key pk e g) = ConsumerGroup.id g
  ∧ ConsumerGroup.members (consume_key pk e g) = ConsumerGroup.members g
  ∧ ConsumerGroup.assignments (consume_key pk e g) = ConsumerGroup.assignments g.
Proof. unfold consume_key. by repeat case_match. Qed.

Lemma consume_keys_frame kps :
  ∀ g, ConsumerGroup.id (consume_keys kps g) = ConsumerGroup.id g
       ∧ ConsumerGroup.members (consume_keys kps g) = ConsumerGroup.members g
       ∧ ConsumerGroup.assignments (consume_keys kps g) = ConsumerGroup.assignments g.
Proof.
  induction kps as [|[pk e] kps IH]; intros g; [done|].
  change (consume_keys ((pk, e) :: kps) g)
    with (consume_keys kps (consume_key pk e g)).
  destruct (IH (consume_key pk e g)) as (-> & -> & ->).
  apply consume_key_frame.
Qed.

Lemma consume_keys_other kps k :
  k ∉ kps.*1 →
  ∀ g, ConsumerGroup.offsets (consume_keys kps g) !! k
       = ConsumerGroup.offsets g !! k.
Proof.
  induction kps as [|[pk e] kps IH]; intros Hk g; [done|].
  change (consume_keys ((pk, e) :: kps) g)
    with (consume_keys kps (consume_key pk e g)).
  simpl in Hk. apply not_elem_of_cons in Hk as [Hne Hk].
  rewrite (IH Hk), consume_key_offsets.
  by rewrite bool_decide_false.
Qed.

Lemma committed_consume_key pk e g k :
  committed g k <= committed (consume_key pk e g) k.
Proof.
  unfold committed at 2. rewrite consume_key_offsets.
  case_bool_decide as Hk; simpl; [subst k|done].
  destruct (JS.truthy _); simpl; [|done].
  destruct (committed g pk <? e); simpl; [lia|done].
Qed.

(** A consume step never decreases a committed offset. *)
Lemma committed_consume_keys kps k :
  ∀ g, committed g k <= committed (consume_keys kps g) k.
Proof.
  induction kps as [|[pk e] kps IH]; intros g; [done|].
  change (consume_keys ((pk, e) :: kps) g)
    with (consume_keys kps (consume_key pk e g)).
  etrans; [apply (committed_consume_key pk e)|apply IH].
Qed.

(** When the keys are pairwise distinct, each key is visited once, in
    the state the step started from. *)
Lemma consume_keys_visited kps pk e :
  NoDup kps.*1 → (pk, e) ∈ kps →
  ∀ g, ConsumerGroup.offsets (consume_keys kps g) !! pk
       = ConsumerGroup.offsets (consume_key pk e g) !! pk.
Proof.
  induction kps as [|[pk0 e0] kps IH]; intros Hnd Hin g.
  { by apply not_elem_of_nil in Hin. }
  change (consume_keys ((pk0, e0) :: kps) g)
    with (consume_keys kps (consume_key pk0 e0 g)).
  simpl in Hnd. apply NoDup_cons in Hnd as [Hnotin Hnd].
  apply elem_of_cons in Hin as [[= -> ->]|Hin].
  - by apply consume_keys_other.
  - assert (Hne : pk ≠ pk0).
    { intros ->. apply Hnotin. apply list_elem_of_fmap. by exists (pk0, e). }
    rewrite (IH Hnd Hin), !consume_key_offsets.
    destruct (consume_key_frame pk0 e0 g) as (_ & _ & ->).
    unfold committed. rewrite !consume_key_offsets.
    by rewrite (bool_decide_false (pk = pk0)).
Qed.

Lemma truthy_has_consumer g pk :
  assigned_ids_nonempty g →
  JS.truthy (ConsumerGroup.assignments g !! pk) = true ↔ has_consumer g pk.
Proof.
  intros Hne. unfold has_consumer.
  destruct (ConsumerGroup.assignments g !! pk) as [a|] eqn:Ha; simpl.
  - unfold JS.truthy_string. rewrite bool_decide_eq_true.
    split; [eauto|]. intros _. by eapply Hne.
  - split; [done|]. by intros [? ?].
Qed.

End Consume.

Section ConsumeSteps.

Variable cluster : Cluster.t.
Variable groupId : string.

Let kps := keyed_partitions (Cluster.topics cluster).
Let found := list_find (λ x : ConsumerGroup.t, ConsumerGroup.id x = groupId).

(** Replacing the group that was found by one with the same id leaves
    it the one that is found. *)
Lemma found_insert groups (i : nat) g g' :
  found groups = Some (i, g) → ConsumerGroup.id g' = ConsumerGroup.id g →
  found (<[i := g']> groups) = Some (i, g').
Proof using Type.
  unfold found. rewrite !list_find_Some. intros (Hi & Hid & Hfirst) Hid'.
  split; [|split].
  - apply list_lookup_insert_eq. by eapply lookup_lt_Some.
  - congruence.
  - intros j y Hj Hlt. rewrite list_lookup_insert_ne in Hj by lia.
    by eapply Hfirst.
Qed.

Lemma consumeOnce_found groups (i : nat) g :
  found groups = Some (i, g) →
  consumeOnce groups cluster groupId = <[i := consume_keys kps g]> groups
  ∧ consumeOnce groups cluster groupId !! i = Some (consume_keys kps g).
Proof using Type.
  intros Hf. unfold consumeOnce. fold found. rewrite Hf.
  rewrite consume_cluster_keys. split; [done|].
  apply list_lookup_insert_eq. apply list_find_Some in Hf as [Hi _].
  by eapply lookup_lt_Some.
Qed.

Hypothesis keys_distinct : NoDup kps.*1.

(** One step on a key of the cluster. *)
Lemma consume_keys_step g pk e :
  (pk, e) ∈ kps →
  ConsumerGroup.offsets (consume_keys kps g) !! pk
  = if JS.truthy (ConsumerGroup.assignments g !! pk) && (committed g pk <? e)
    then Some (committed g pk + 1)
    else ConsumerGroup.offsets g !! pk.
Proof using keys_distinct.
  intros Hin. rewrite (consume_keys_visited kps pk e keys_distinct Hin).
  rewrite consume_key_offsets. by rewrite bool_decide_true.
Qed.

Lemma consume_steps_bounds n :
  ∀ groups (i : nat) g, found groups = Some (i, g) →
    ∃ gn, consume_steps n groups cluster groupId !! i = Some gn
      ∧ ConsumerGroup.assignments gn = ConsumerGroup.assignments g
      ∧ (∀ k, committed g k <= committed gn k)
      ∧ (∀ pk e, (pk, e) ∈ kps →
           committed gn pk <= Z.max (committed g pk) e
           ∧ (JS.truthy (ConsumerGroup.assignments g !! pk) = false →
              ConsumerGroup.offsets gn !! pk = ConsumerGroup.offsets g !! pk)).
Proof using keys_distinct.
  induction n as [|n IH]; intros groups i g Hf; simpl.
  - exists g. apply list_find_Some in Hf as Hf'. destruct Hf' as [Hi _].
    split; [done|]. split; [done|]. split; [done|].
    intros pk e _. split; [lia|done].
  - destruct (consumeOnce_found groups i g Hf) as [Hrun _]. rewrite Hrun.
    destruct (consume_keys_frame kps g) as (Hid & _ & Hasg).
    destruct (IH _ i _ (found_insert groups i g _ Hf Hid))
      as (gn & Hgn & Hasgn & Hmono & Hkeys).
    exists gn. split; [done|]. split; [congruence|]. split.
    + intros k. etrans; [apply (committed_consume_keys kps)|apply Hmono].
    + intros pk e Hin. destruct (Hkeys pk e Hin) as [Hle Hnone].
      pose proof (consume_keys_step g pk e Hin) as Hstep.
      rewrite Hasg in Hnone. split.
      * etrans; [exact Hle|]. unfold committed at 1. rewrite Hstep.
        destruct (JS.truthy _); simpl; [|unfold committed; lia].
        destruct (Z.ltb_spec (committed g pk) e); simpl; [lia|].
        unfold committed; lia.
      * intros Hfalse. rewrite (Hnone Hfalse), Hstep. by rewrite Hfalse.
Qed.

End ConsumeSteps.

(** C6 fails as stated, for every group and cluster: a key shared by two
    partitions is visited twice in one step and its offset goes up by 2;
    and a key assigned to a consumer whose id is the empty string makes no
    progress. *)
Lemma consume_step_counterexample :
  (∃ g', consumeOnce [group_assigned] cluster_twins "g1" !! 0%nat = Some g'
         ∧ ConsumerGroup.offsets g' !! "t:p0"%string = Some 2
         ∧ ¬ consume_step_spec cluster_twins group_assigned g')
  ∧ (∃ g', consumeOnce [group_blank_consumer] cluster_three "g1" !! 0%nat = Some g'
           ∧ ConsumerGroup.offsets g' !! "t:p0"%string = None
           ∧ ¬ consume_step_spec cluster_three group_blank_consumer g').
Proof.
  split; eexists; (split; [reflexivity|]); (split; [by vm_compute|]);
    intros [Hstep _];
    destruct (Hstep 0%nat 0%nat _ _ eq_refl eq_refl) as [Hinc _];
    simpl in Hinc.
  - assert (Hc : has_consumer group_assigned "t:p0")
      by (eexists; by vm_compute).
    specialize (Hinc Hc ltac:(by vm_compute)).
    vm_compute in Hinc. discriminate Hinc.
  - assert (Hc : has_consumer group_blank_consumer "t:p0")
      by (eexists; by vm_compute).
    specialize (Hinc Hc ltac:(by vm_compute)).
    vm_compute in Hinc. discriminate Hinc.
Qed.

(** C6, amended. When the partition keys of the cluster are pairwise
    distinct and no key of the group is assigned to an empty consumer id,
    one [consumeOnce] raises by exactly 1 the committed offset of every
    partition key that has a consumer and is behind its partition's end
    offset, and changes no other committed offset. Consequently, over any
    number of calls on the same cluster, no committed offset decreases, the
    committed offset of a partition stays below the larger of its initial
    value and the partition's end offset, and a key without consumer keeps
    its offset. *)
Theorem consumeOnce_offsets
    (groups : list ConsumerGroup.t) (cluster : Cluster.t) (groupId : string)
    (i : nat) (g : ConsumerGroup.t) :
  list_find (λ x, ConsumerGroup.id x = groupId) groups = Some (i, g) →
  NoDup (allParts (Cluster.topics cluster)) →
  assigned_ids_nonempty g →
  (∃ g', consumeOnce groups cluster groupId !! i = Some g'
     ∧ ConsumerGroup.assignments g' = ConsumerGroup.assignments g
     ∧ consume_step_spec cluster g g')
  ∧ ∀ n, ∃ gn, consume_steps n groups cluster groupId !! i = Some gn
      ∧ (∀ k, committed g k <= committed gn k)
      ∧ ∀ ti pi t p,
          Cluster.topics cluster !! ti = Some t →
          Topic.partitions t !! pi = Some p →
          let pk := partitionKey (Topic.name t) (Partition.id p) in
          committed gn pk <= Z.max (committed g pk) (Partition.endOffset p)
          ∧ (¬ has_consumer g pk →
             ConsumerGroup.offsets gn !! pk = ConsumerGroup.offsets g !! pk).
Proof.
  intros Hf Hkeys Hne. rewrite allParts_keyed in Hkeys. split.
  - destruct (consumeOnce_found cluster groupId groups i g Hf) as [_ Hrun].
    eexists. split; [exact Hrun|].
    destruct (consume_keys_frame (keyed_partitions (Cluster.topics cluster)) g)
      as (_ & _ & Hasg).
    split; [exact Hasg|]. split.
    + intros ti pi t p Ht Hp. cbv zeta.
      set (pk := partitionKey (Topic.name t) (Partition.id p)).
      pose proof (keyed_partitions_lookup _ ti pi t p Ht Hp) as Hin.
      fold pk in Hin.
      rewrite (consume_keys_step cluster Hkeys g _ _ Hin). split.
      * intros Hc Hlt. apply (truthy_has_consumer g pk Hne) in Hc. rewrite Hc.
        by rewrite (proj2 (Z.ltb_lt _ _) Hlt).
      * intros [Hc|Hge].
        -- rewrite <- (truthy_has_consumer g pk Hne) in Hc.
           apply not_true_is_false in Hc. by rewrite Hc.
        -- rewrite (proj2 (Z.ltb_ge _ _) Hge). by rewrite andb_false_r.
    + intros k Hk. apply consume_keys_other. by rewrite <- allParts_keyed.
  - intros n.
    destruct (consume_steps_bounds cluster groupId Hkeys n groups i g Hf)
      as (gn & Hgn & _ & Hmono & Hb).
    exists gn. split; [exact Hgn|]. split; [exact Hmono|].
    intros ti pi t p Ht Hp. cbv zeta.
    set (pk := partitionKey (Topic.name t) (Partition.id p)).
    destruct (Hb _ _ (keyed_partitions_lookup _ ti pi t p Ht Hp)) as [Hle Hnone].
    split; [exact Hle|]. intros Hc. apply Hnone.
    rewrite <- (truthy_has_consumer g pk Hne) in Hc. by apply not_true_is_false.
Qed.

Lemma consumeOnce_offsets_witness :
  (∃ g', consumeOnce [group_assigned] cluster_three "g1" !! 0%nat = Some g'
         ∧ consume_step_spec cluster_three group_assigned g')
  ∧ (∃ g3, consume_steps 3 [group_assigned] cluster_three "g1" !! 0%nat = Some g3
           ∧ committed g3 "t:p0" = 3).
Proof.
  destruct (consumeOnce_offsets [group_assigned] cluster_three "g1" 0 group_assigned)
    as [(g' & Hg' & _ & Hspec) _].
  - reflexivity.
  - apply (bool_decide_unpack _). vm_compute. exact I.
  - intros pk a Ha. unfold group_assigned in Ha. simpl in Ha.
    apply lookup_singleton_Some in Ha as [_ <-]. done.
  - split; [by exists g'|]. eexists. split; [reflexivity|]. by vm_compute.
Defined.

(** ** Producer *)

Section Produce.

(** On values the copy made by [cloneCluster] is the cluster itself. *)
Lemma cloneCluster_id c : cloneCluster c = c.
Proof.
  destruct c as [bs ts]. unfold cloneCluster. simpl. f_equal.
  - rewrite <- (list_fmap_id bs) at 2. apply list_fmap_ext.
    by intros _ [] _.
  - rewrite <- (list_fmap_id ts) at 2. apply list_fmap_ext.
    intros _ [n ps col] _. simpl. f_equal.
    rewrite <- (list_fmap_id ps) at 2. apply list_fmap_ext.
    intros _ [] _. simpl. by rewrite list_fmap_id.
Qed.

Lemma produce_unknown_topic rnd produceTopic produceKey prev :
  ¬ topic_exists prev produceTopic →
  produce rnd produceTopic produceKey prev = Some prev.
Proof.
  intros Hno. unfold produce. rewrite cloneCluster_id.
  destruct (list_find _ _) as [[ti t]|] eqn:Hf; [|done].
  apply list_find_Some in Hf as (Ht & Hname & _).
  destruct Hno. exists t. split; [by eapply list_elem_of_lookup_2|done].
Qed.

(** The partition index chosen by [produce] names a partition. *)
Lemma produce_index_in_range rnd produceKey (n : nat) :
  random_in_range rnd → (0 < n)%nat →
  ∃ z, (if JS.truthy_string produceKey
        then hashKeyToPartition produceKey (Z.of_nat n)
        else Some (rnd (Z.of_nat n))) = Some z
       ∧ 0 <= z < Z.of_nat n.
Proof.
  intros Hrnd Hn. destruct (JS.truthy_string produceKey).
  - rewrite hashKeyToPartition_mod by lia. eexists. split; [done|].
    apply Z.mod_pos_bound. lia.
  - eexists. split; [done|]. apply Hrnd. lia.
Qed.

End Produce.

(** C7 fails as stated, for every cluster: on a topic that exists but has
    no partition, [produce] throws, with or without a key, and no end
    offset is raised. *)
Lemma produce_counterexample :
  topic_exists cluster_empty_topic "t"
  ∧ produce (λ _, 0) "t" "" cluster_empty_topic = None
  ∧ produce (λ _, 0) "t" "user-42" cluster_empty_topic = None
  ∧ ¬ produce_spec (λ _, 0) "t" "" cluster_empty_topic.
Proof.
  assert (He : topic_exists cluster_empty_topic "t").
  { eexists. split; [left|done]. }
  repeat split; [exact He|..].
  intros [Hex _]. destruct (Hex He) as (next & ti & pi & t & Hp & _).
  discriminate Hp.
Qed.

(** C7, amended. When the topic found under the requested name (the first
    of that name) has at least one partition, [produce] raises the end
    offset of exactly one partition of that topic by exactly 1 and changes
    nothing else: the brokers, the other topics and partitions, and the
    other fields of that partition stay as they are; when no topic has that
    name the cluster is returned unchanged. *)
Theorem produce_appends_one (rnd : Z → Z) (produceTopic produceKey : string)
    (prev : Cluster.t) :
  random_in_range rnd →
  (∀ ti t, first_topic prev produceTopic = Some (ti, t) →
           Topic.partitions t ≠ []) →
  produce_spec rnd produceTopic produceKey prev.
Proof.
  intros Hrnd Hparts. split; [|apply produce_unknown_topic].
  intros (t0 & Hin0 & Hname0). unfold produce. rewrite cloneCluster_id.
  fold (first_topic prev produceTopic).
  destruct (first_topic prev produceTopic) as [[ti t]|] eqn:Hf.
  - specialize (Hparts ti t eq_refl).
    apply list_find_Some in Hf as Hf'. destruct Hf' as (Ht & Hname & _).
    assert (Hlen : (0 < length (Topic.partitions t))%nat).
    { destruct (Topic.partitions t); [done|simpl; lia]. }
    destruct (produce_index_in_range rnd produceKey _ Hrnd Hlen)
      as (z & -> & Hz).
    simpl. case_decide; [|lia].
    destruct (lookup_lt_is_Some_2 (Topic.partitions t) (Z.to_nat z) ltac:(lia))
      as [part Hpart].
    rewrite Hpart. simpl.
    eexists _, ti, (Z.to_nat z), t. split; [reflexivity|].
    split; [done|]. by exists t, part.
  - apply list_find_None in Hf. rewrite Forall_forall in Hf.
    by destruct (Hf t0 Hin0).
Qed.

Lemma produce_appends_one_witness :
  ∃ next, produce (λ _, 0) "t" "user-42" cluster_three = Some next
    ∧ appended_at cluster_three 0 1 next.
Proof.
  destruct (produce_appends_one (λ _, 0) "t" "user-42" cluster_three)
    as [Hex _].
  - intros n Hn. lia.
  - intros ti t [= <- <-]. done.
  - destruct Hex as (next & ti & pi & t & Hp & _).
    + eexists. split; [left|done].
    + exists next. split; [exact Hp|].
      vm_compute in Hp. injection Hp as <-.
      do 2 eexists. repeat split.
Defined.

(** * Further properties of the engine *)

(** ** Partition keys *)

Section Keys.

Lemma occurs_app c s1 s2 : occurs c (s1 +:+ s2) ↔ occurs c s1 ∨ occurs c s2.
Proof. induction s1 as [|a s1 IH]; simpl; [tauto|]. rewrite IH. tauto. Qed.

Lemma pretty_N_char_not_p x : pretty_N_char x ≠ "p"%char.
Proof. unfold pretty_N_char. by repeat case_match. Qed.

Lemma pretty_N_go_no_p x :
  ∀ s, ¬ occurs "p" s → ¬ occurs "p" (pretty_N_go x s).
Proof.
  induction (N.lt_wf_0 x) as [x _ IH]; intros s Hs.
  destruct (decide (x = 0)%N) as [->|Hx]; [by rewrite pretty_N_go_0|].
  rewrite pretty_N_go_step by lia. apply IH; [apply N.div_lt; lia|].
  simpl. intros [H|H]; [by apply pretty_N_char_not_p in H|done].
Qed.

Lemma pretty_N_no_p (x : N) : ¬ occurs "p" (pretty x).
Proof.
  unfold pretty, pretty_N. case_decide as Hx.
  - simpl. intros [H|[]]. discriminate H.
  - apply pretty_N_go_no_p. simpl. tauto.
Qed.

(** The decimal form of an integer has no letter in it. *)
Lemma pretty_Z_no_p (z : Z) : ¬ occurs "p" (pretty z).
Proof.
  destruct z as [|x|x]; unfold pretty, pretty_Z.
  - simpl. intros [H|[]]. discriminate H.
  - apply pretty_N_no_p.
  - rewrite occurs_app. intros [[H|[]]|H]; [discriminate H|].
    by apply (pretty_N_no_p (N.pos x)).
Qed.

Lemma append_nil s : "" +:+ s = s.
Proof. reflexivity. Qed.

Lemma append_cons a s1 s2 : String a s1 +:+ s2 = String a (s1 +:+ s2).
Proof. reflexivity. Qed.

(** A key is cut in one way only at its last [":p"]. *)
Lemma key_split t1 :
  ∀ t2 d1 d2, ¬ occurs "p" d1 → ¬ occurs "p" d2 →
    t1 +:+ ":p" +:+ d1 = t2 +:+ ":p" +:+ d2 → t1 = t2 ∧ d1 = d2.
Proof.
  assert (Hmid : ∀ t d d', ¬ occurs "p" d' → d' ≠ t +:+ ":p" +:+ d).
  { intros t d d' Hd' ->. apply Hd'. rewrite !occurs_app. right. left.
    simpl. tauto. }
  induction t1 as [|a t1 IH]; intros t2 d1 d2 H1 H2 Heq.
  - destruct t2 as [|b [|b' t2]]; rewrite ?append_cons, ?append_nil in Heq.
    + by injection Heq as ->.
    + by injection Heq.
    + injection Heq as _ _ Heq. by destruct (Hmid t2 d2 d1).
  - destruct t2 as [|b t2]; rewrite ?append_cons, ?append_nil in Heq.
    + destruct t1 as [|a' t1]; rewrite ?append_cons, ?append_nil in Heq.
      * by injection Heq.
      * injection Heq as _ _ Heq. symmetry in Heq. by destruct (Hmid t1 d1 d2).
    + injection Heq as -> Heq. by destruct (IH t2 d1 d2 H1 H2 Heq) as [-> ->].
Qed.

Lemma built_topics_names brokerCount cfgs ts :
  Forall2 (built_from brokerCount) cfgs ts →
  Topic.name <$> ts = TopicConfig.name <$> cfgs.
Proof.
  induction 1 as [|cfg t cfgs ts [Hname _] _ IH]; [done|].
  rewrite !fmap_cons. by rewrite Hname, IH.
Qed.

Lemma built_partition_ids brokerCount cfg t :
  built_from brokerCount cfg t →
  Partition.id <$> Topic.partitions t = seqZ 0 (TopicConfig.partitions cfg).
Proof.
  intros [_ ->]. rewrite <- list_fmap_compose.
  rewrite <- (list_fmap_id (seqZ 0 _)) at 2. by apply list_fmap_ext.
Qed.

(** Equal keys name the same topic and the same partition number. *)
Lemma partitionKey_eq t1 t2 p1 p2 :
  partitionKey t1 p1 = partitionKey t2 p2 → t1 = t2 ∧ p1 = p2.
Proof.
  unfold partitionKey. intros Heq.
  apply key_split in Heq as [-> Hp]; [|apply pretty_Z_no_p..].
  split; [done|]. by apply (inj pretty).
Qed.

Lemma allParts_distinct topics :
  NoDup (Topic.name <$> topics) →
  (∀ t, t ∈ topics → NoDup (Partition.id <$> Topic.partitions t)) →
  NoDup (allParts topics).
Proof.
  intros Hnames Hids. unfold allParts. apply NoDup_bind.
  - intros t1 t2 k Ht1 Ht2 H1 H2.
    apply list_elem_of_fmap in H1 as (q1 & -> & _).
    apply list_elem_of_fmap in H2 as (q2 & Hk & _).
    apply partitionKey_eq in Hk as [Hn _].
    apply list_elem_of_lookup_1 in Ht1 as [i1 Hi1].
    apply list_elem_of_lookup_1 in Ht2 as [i2 Hi2].
    assert (i1 = i2) as ->; [|congruence].
    eapply (NoDup_lookup _ _ _ _ Hnames).
    + by rewrite list_lookup_fmap, Hi1.
    + rewrite list_lookup_fmap, Hi2. simpl. by rewrite Hn.
  - intros t Ht. specialize (Hids t Ht).
    apply (NoDup_fmap_2_strong _); [|by apply NoDup_fmap_1 in Hids].
    intros q1 q2 Hq1 Hq2 Hk. apply partitionKey_eq in Hk as [_ Hid].
    apply list_elem_of_lookup_1 in Hq1 as [j1 Hj1].
    apply list_elem_of_lookup_1 in Hq2 as [j2 Hj2].
    assert (j1 = j2) as ->; [|congruence].
    eapply (NoDup_lookup _ _ _ _ Hids).
    + by rewrite list_lookup_fmap, Hj1.
    + rewrite list_lookup_fmap, Hj2. simpl. by rewrite Hid.
  - by apply NoDup_fmap_1 in Hnames.
Qed.

End Keys.

(** X1. Two partition keys are equal only for the same topic name and the
    same partition number, whatever characters the topic names contain. *)
Theorem partitionKey_inj (t1 t2 : string) (p1 p2 : Z) :
  partitionKey t1 p1 = partitionKey t2 p2 ↔ t1 = t2 ∧ p1 = p2.
Proof. split; [apply partitionKey_eq|by intros [-> ->]]. Qed.

(** X2. When the topic names are pairwise distinct and the partition
    numbers are pairwise distinct within each topic, the partition keys
    enumerated by [rebalanceGroup] and visited by [consumeOnce] are
    pairwise distinct. *)
Theorem allParts_NoDup (topics : list Topic.t) :
  NoDup (Topic.name <$> topics) →
  (∀ t, t ∈ topics → NoDup (Partition.id <$> Topic.partitions t)) →
  NoDup (allParts topics).
Proof. apply allParts_distinct. Qed.

Lemma allParts_NoDup_witness : NoDup (allParts three_partitions).
Proof.
  apply (allParts_NoDup three_partitions).
  - apply (bool_decide_unpack _). vm_compute. exact I.
  - intros t Ht. elem_of_cases Ht.
    apply (bool_decide_unpack _). vm_compute. exact I.
Defined.

(** X3. For [brokerCount ≥ 1] and topic configurations with pairwise
    distinct names, every cluster [buildCluster] returns has pairwise
    distinct partition keys. *)
Theorem buildCluster_keys_distinct
    (brokerCount : Z) (topicsConfig : list TopicConfig.t) (c : Cluster.t) :
  1 <= brokerCount →
  NoDup (TopicConfig.name <$> topicsConfig) →
  buildCluster brokerCount topicsConfig = Some c →
  NoDup (allParts (Cluster.topics c)).
Proof.
  intros Hbc Hnames Hc.
  destruct (buildCluster_inv brokerCount Hbc topicsConfig c Hc) as (ts & -> & Hts).
  simpl. apply allParts_distinct.
  - by rewrite (built_topics_names _ _ _ Hts).
  - intros t Ht. apply list_elem_of_lookup_1 in Ht as [i Hi].
    destruct (Forall2_lookup_r _ _ _ _ _ Hts Hi) as (cfg & _ & Hb).
    rewrite (built_partition_ids _ _ _ Hb). apply NoDup_seqZ.
Qed.

Lemma buildCluster_keys_distinct_witness :
  ∃ c, buildCluster 3 [TopicConfig.mk "logs" 6 2; TopicConfig.mk "purchases" 6 3]
       = Some c
       ∧ NoDup (allParts (Cluster.topics c)).
Proof.
  destruct (buildCluster 3 [TopicConfig.mk "logs" 6 2; TopicConfig.mk "purchases" 6 3])
    as [c|] eqn:Hc; [|by vm_compute in Hc].
  exists c. split; [done|].
  apply (buildCluster_keys_distinct 3
           [TopicConfig.mk "logs" 6 2; TopicConfig.mk "purchases" 6 3] c
           ltac:(lia)); [|exact Hc].
  apply (bool_decide_unpack _). vm_compute. exact I.
Defined.

(** ** Invariants of the clusters the engine maintains *)

Section WellFormed.

Lemma partition_at_Some c ti pi p :
  partition_at c ti pi = Some p ↔
  ∃ t, Cluster.topics c !! ti = Some t ∧ Topic.partitions t !! pi = Some p.
Proof.
  unfold partition_at. destruct (Cluster.topics c !! ti) as [t|]; simpl.
  - split; [eauto|]. by intros (t' & [= <-] & Hp).
  - split; [done|]. by intros (t' & Ht & _).
Qed.

(** The partitions of a built cluster, position by position. *)
Lemma built_partition_at brokerCount bs cfgs ts ti pi p :
  Forall2 (built_from brokerCount) cfgs ts →
  partition_at (Cluster.mk bs ts) ti pi = Some p →
  ∃ cfg, cfgs !! ti = Some cfg
    ∧ Z.of_nat pi < TopicConfig.partitions cfg
    ∧ p = built_partition brokerCount
            (Z.max 1 (Z.min (TopicConfig.replicationFactor cfg) brokerCount))
            (TopicConfig.name cfg) (Z.of_nat pi).
Proof.
  intros Hts Hp. apply partition_at_Some in Hp as (t & Ht & Hp). simpl in Ht.
  destruct (Forall2_lookup_r _ _ _ _ _ Hts Ht) as (cfg & Hcfg & _ & Hparts).
  exists cfg. split; [done|]. rewrite Hparts, list_lookup_fmap in Hp.
  destruct (seqZ 0 _ !! pi) as [z|] eqn:Hz; [|done].
  apply lookup_seqZ in Hz as [-> Hlt]. injection Hp as <-. by split.
Qed.

Lemma replica_ids_elem brokerCount rf p r :
  1 <= brokerCount →
  r ∈ replica_ids brokerCount rf p →
  ∃ i, 0 <= i < brokerCount ∧ r = Broker.id (build_broker i).
Proof.
  intros Hbc Hr. unfold replica_ids in Hr.
  apply list_elem_of_fmap in Hr as (k & -> & _).
  eexists. split; [|done]. apply Z.mod_pos_bound. lia.
Qed.

Lemma built_brokers_elem brokerCount i :
  0 <= i < brokerCount →
  build_broker i ∈ built_brokers brokerCount.
Proof.
  intros Hi. unfold built_brokers. apply list_elem_of_fmap.
  exists i. split; [done|]. apply elem_of_seqZ. lia.
Qed.

Lemma built_well_formed brokerCount cfgs ts :
  1 <= brokerCount →
  Forall2 (built_from brokerCount) cfgs ts →
  well_formed (Cluster.mk (built_brokers brokerCount) ts).
Proof.
  intros Hbc Hts. split; [|split; [|split; [|split]]].
  - intros b Hb. simpl in Hb. unfold built_brokers in Hb.
    apply list_elem_of_fmap in Hb as (i & -> & _). done.
  - unfold broker_ids_distinct, built_brokers. simpl.
    rewrite <- list_fmap_compose. apply NoDup_fmap_2_strong; [|apply NoDup_seqZ].
    intros i j _ _. apply build_broker_id_inj.
  - intros ti pi p l Hp Hl.
    destruct (built_partition_at _ _ _ _ _ _ _ Hts Hp) as (cfg & _ & _ & ->).
    simpl in *. by apply head_Some_elem_of.
  - intros ti pi p r Hp Hr.
    destruct (built_partition_at _ _ _ _ _ _ _ Hts Hp) as (cfg & _ & _ & ->).
    simpl in *. apply replica_ids_elem in Hr as (i & Hi & ->); [|done].
    exists (build_broker i). split; [by apply built_brokers_elem|done].
  - intros ti pi p Hp.
    destruct (built_partition_at _ _ _ _ _ _ _ Hts Hp) as (cfg & _ & _ & ->).
    simpl. split.
    + intros Hnil. apply (f_equal length) in Hnil.
      rewrite replica_ids_length in Hnil. simpl in Hnil. lia.
    + apply replica_ids_NoDup; lia.
Qed.

(** An election keeps the cluster well formed. *)
Lemma elect_well_formed c : well_formed c → well_formed (electLeaders c).
Proof.
  intros (Hne & Hnd & Hlead & Hrep & Hdist). split; [|split; [|split; [|split]]].
  - exact Hne.
  - exact Hnd.
  - intros ti pi p' l Hp' Hl. rewrite partition_at_elect in Hp'.
    destruct (partition_at c ti pi) as [p|] eqn:Hp; [|done].
    injection Hp' as <-. unfold elect_partition in Hl. simpl in *.
    destruct (hasLeaderAlive (upSet c) p); simpl in Hl.
    + by eapply Hlead.
    + apply head_Some_elem_of in Hl. unfold aliveReplicas in Hl.
      by apply list_elem_of_filter in Hl as [_ Hl].
  - intros ti pi p' r Hp' Hr. rewrite partition_at_elect in Hp'.
    destruct (partition_at c ti pi) as [p|] eqn:Hp; [|done].
    injection Hp' as <-. by eapply Hrep.
  - intros ti pi p' Hp'. rewrite partition_at_elect in Hp'.
    destruct (partition_at c ti pi) as [p|] eqn:Hp; [|done].
    injection Hp' as <-. exact (Hdist _ _ _ Hp).
Qed.

(** Well-formedness reads the brokers only through their ids. *)
Lemma well_formed_flags c bs :
  Broker.id <$> bs = Broker.id <$> Cluster.brokers c →
  well_formed c → well_formed (Cluster.mk bs (Cluster.topics c)).
Proof.
  intros Hids (Hne & Hnd & Hlead & Hrep & Hdist).
  assert (Hin : ∀ r, (∃ b, b ∈ bs ∧ Broker.id b = r)
                     ↔ ∃ b, b ∈ Cluster.brokers c ∧ Broker.id b = r).
  { intros r. trans (r ∈ Broker.id <$> bs).
    - rewrite list_elem_of_fmap. split; intros (b & ? & ?); eauto.
    - rewrite Hids, list_elem_of_fmap. split; intros (b & ? & ?); eauto. }
  split; [|split; [|split; [|split]]].
  - intros b Hb. destruct (proj1 (Hin (Broker.id b))) as (b0 & Hb0 & Hid); [eauto|].
    rewrite <- Hid. by apply Hne.
  - unfold broker_ids_distinct. simpl. by rewrite Hids.
  - exact Hlead.
  - intros ti pi p r Hp Hr. apply Hin. by eapply Hrep.
  - exact Hdist.
Qed.

(** The safety of an election, from the two facts it rests on. *)
Lemma elect_partition_safe c p :
  broker_ids_nonempty c →
  (∀ l, Partition.leader p = Some l → l ∈ Partition.replicas p) →
  election_safe c (elect_partition (upSet c) p).
Proof.
  intros Hne Hrep.
  pose proof (elect_leader_up c p) as Hup.
  pose proof (alive_head_first_up c p) as Hfirst.
  unfold election_safe, elect_partition in *. simpl in *.
  destruct (hasLeaderAlive (upSet c) p) eqn:E; simpl in *.
  - apply hasLeaderAlive_true in E as (l & Hl & Hnempty & Hin).
    rewrite Hl in *. simpl. unfold JS.truthy_string.
    rewrite bool_decide_true by done. simpl.
    split; [|split; [exact Hup|done]].
    split; [done|]. intros Hall. destruct (Hall l); [by apply Hrep|].
    by apply elem_of_upSet.
  - destruct (head (aliveReplicas (upSet c) p)) as [r|]; simpl in *.
    + destruct Hfirst as (i & Hi & Hr & _).
      assert (r ≠ EmptyString) by by eapply is_up_nonempty.
      unfold JS.truthy_string. rewrite bool_decide_true by done. simpl.
      split; [|split; [exact Hup|done]].
      split; [done|]. intros Hall.
      destruct (Hall r); [by eapply list_elem_of_lookup_2|done].
    + split; [done|]. split; [exact Hup|done].
Qed.

Lemma elect_safe_everywhere c ti pi p' :
  well_formed c →
  partition_at (electLeaders c) ti pi = Some p' →
  election_safe (electLeaders c) p'.
Proof.
  intros (Hne & _ & Hlead & _) Hp'. rewrite partition_at_elect in Hp'.
  destruct (partition_at c ti pi) as [p|] eqn:Hp; [|done].
  injection Hp' as <-. apply (elect_partition_safe c p Hne).
  intros l Hl. by eapply Hlead.
Qed.

End WellFormed.

(** X4. For [brokerCount ≥ 1], every cluster [buildCluster] returns is
    well formed: broker ids are non-empty and pairwise distinct, every
    leader is one of its partition's replicas, every replica names a broker
    of the cluster, replica lists are non-empty without repetition; it has
    [brokerCount] brokers and every broker is up. *)
Theorem buildCluster_well_formed
    (brokerCount : Z) (topicsConfig : list TopicConfig.t) (c : Cluster.t) :
  1 <= brokerCount →
  buildCluster brokerCount topicsConfig = Some c →
  well_formed c
  ∧ length (Cluster.brokers c) = Z.to_nat brokerCount
  ∧ ∀ b, b ∈ Cluster.brokers c → Broker.up b = true.
Proof.
  intros Hbc Hc.
  destruct (buildCluster_inv brokerCount Hbc topicsConfig c Hc) as (ts & -> & Hts).
  split; [by eapply built_well_formed|].
  simpl. unfold built_brokers. split; [by rewrite length_fmap, length_seqZ|].
  intros b Hb. by apply list_elem_of_fmap in Hb as (i & -> & _).
Qed.

Lemma buildCluster_well_formed_witness :
  ∃ c, buildCluster 3 [TopicConfig.mk "t" 3 2] = Some c ∧ well_formed c.
Proof.
  destruct (buildCluster 3 [TopicConfig.mk "t" 3 2]) as [c|] eqn:Hc;
    [|by vm_compute in Hc].
  exists c. split; [done|].
  by destruct (buildCluster_well_formed 3 [TopicConfig.mk "t" 3 2] c
                 ltac:(lia) Hc) as [Hwf _].
Defined.

(** X5. [electLeaders] keeps a well-formed cluster well formed, and in
    the cluster it returns every partition is election-safe: a null
    leader exactly when no replica is up, a non-null leader up, [offline]
    exactly when the leader is null. *)
Theorem electLeaders_well_formed (c : Cluster.t) :
  well_formed c →
  well_formed (electLeaders c)
  ∧ ∀ ti pi p', partition_at (electLeaders c) ti pi = Some p' →
      election_safe (electLeaders c) p'.
Proof.
  intros Hwf. split; [by apply elect_well_formed|].
  intros ti pi p'. by apply elect_safe_everywhere.
Qed.

Lemma electLeaders_well_formed_witness :
  ∃ c, buildCluster 2 [TopicConfig.mk "t" 2 2] = Some c
    ∧ well_formed (electLeaders c) ∧ all_safe (electLeaders c).
Proof.
  destruct (buildCluster_Some 2 ltac:(lia) [TopicConfig.mk "t" 2 2] ltac:(lia)
              ltac:(repeat constructor; simpl; lia))
    as (ts & Hc & Hts).
  pose proof (built_well_formed 2 _ _ ltac:(lia) Hts) as Hwf.
  vm_compute in Hc. injection Hc as <-.
  eexists. split; [reflexivity|].
  exact (electLeaders_well_formed _ Hwf).
Defined.

Section BrokerCommands.

Lemma flip_up_involutive b : flip_up (flip_up b) = b.
Proof. destruct b as [i n u]. unfold flip_up. simpl. by rewrite negb_involutive. Qed.

Lemma list_find_insert_same {A} (P : A → Prop) `{∀ x, Decision (P x)}
    (l : list A) (i : nat) x y :
  list_find P l = Some (i, x) → P y → list_find P (<[i := y]> l) = Some (i, y).
Proof.
  rewrite !list_find_Some. intros (Hi & HP & Hfirst) Hy.
  split; [|split].
  - apply list_lookup_insert_eq. by eapply lookup_lt_Some.
  - done.
  - intros j z Hj Hlt. rewrite list_lookup_insert_ne in Hj by lia.
    by eapply Hfirst.
Qed.

(** What [toggleBroker] returns, and when. *)
Lemma toggleBroker_Some c id c' :
  toggleBroker c id = Some c' ↔
  ∃ (i : nat) b,
    list_find (λ x, Broker.id x = id) (Cluster.brokers c) = Some (i, b)
    ∧ c' = electLeaders
             (Cluster.mk (<[i := flip_up b]> (Cluster.brokers c)) (Cluster.topics c)).
Proof.
  unfold toggleBroker. rewrite cloneCluster_id.
  destruct (list_find _ _) as [[i b]|]; simpl.
  - split.
    + intros [= <-]. by exists i, b.
    + by intros (i' & b' & [= <- <-] & ->).
  - split; [done|]. by intros (i' & b' & ? & _).
Qed.

Lemma flip_ids (bs : list Broker.t) (i : nat) b :
  bs !! i = Some b →
  Broker.id <$> <[i := flip_up b]> bs = Broker.id <$> bs.
Proof.
  intros Hi. rewrite list_fmap_insert. simpl.
  apply list_insert_id. by rewrite list_lookup_fmap, Hi.
Qed.

Lemma toggleBroker_keeps_well_formed c id c' :
  well_formed c → toggleBroker c id = Some c' → well_formed c'.
Proof.
  intros Hwf Ht. apply toggleBroker_Some in Ht as (i & b & Hf & ->).
  apply list_find_Some in Hf as (Hi & _ & _).
  apply elect_well_formed.
  apply (well_formed_flags c); [|done]. by apply flip_ids.
Qed.

Lemma setAllUp_eq c up :
  setAllUp c up
  = electLeaders
      (Cluster.mk ((λ b, Broker.mk (Broker.id b) (Broker.name b) up)
                     <$> Cluster.brokers c) (Cluster.topics c)).
Proof. unfold setAllUp. by rewrite cloneCluster_id. Qed.

Lemma setAllUp_keeps_well_formed c up : well_formed c → well_formed (setAllUp c up).
Proof.
  intros Hwf. rewrite setAllUp_eq. apply elect_well_formed.
  apply (well_formed_flags c); [|done].
  rewrite <- list_fmap_compose. by apply list_fmap_ext.
Qed.

(** With distinct ids, a broker is the one found under its own id. *)
Lemma list_find_own_id (bs : list Broker.t) (i : nat) b :
  NoDup (Broker.id <$> bs) → bs !! i = Some b →
  list_find (λ x, Broker.id x = Broker.id b) bs = Some (i, b).
Proof.
  intros Hnd Hi. apply list_find_Some. split; [done|]. split; [done|].
  intros j y Hj Hlt Hid.
  assert (j = i); [|lia].
  eapply (NoDup_lookup _ _ _ _ Hnd).
  - by rewrite list_lookup_fmap, Hj.
  - rewrite list_lookup_fmap, Hi. simpl. by rewrite Hid.
Qed.

(** Taking one broker that is up down lowers the count of up brokers by
    one. *)
Lemma up_count_down (bs : list Broker.t) (i : nat) b :
  bs !! i = Some b → Broker.up b = true →
  S (length (filter (λ x, Broker.up x = true) (<[i := flip_up b]> bs)))
  = length (filter (λ x, Broker.up x = true) bs).
Proof.
  intros Hi Hup.
  rewrite insert_take_drop by by eapply lookup_lt_Some.
  rewrite <- (take_drop_middle bs i b Hi) at 3.
  rewrite !filter_app, !filter_cons, !length_app.
  destruct (decide (Broker.up (flip_up b) = true)) as [Hf|_].
  { unfold flip_up in Hf. simpl in Hf. rewrite Hup in Hf. done. }
  destruct (decide (Broker.up b = true)); [|done]. simpl. lia.
Qed.

End BrokerCommands.

(** X6. The first election on a cluster that [buildCluster] has just
    returned ([brokerCount ≥ 1]) moves no leader: every partition keeps its
    preferred replica [replicas[0]] as leader, gets [offline = false], and
    is otherwise unchanged. *)
Theorem electLeaders_after_build
    (brokerCount : Z) (topicsConfig : list TopicConfig.t) (c : Cluster.t) :
  1 <= brokerCount →
  buildCluster brokerCount topicsConfig = Some c →
  ∀ ti pi p, partition_at c ti pi = Some p →
    Partition.leader p = Partition.replicas p !! 0%nat
    ∧ partition_at (electLeaders c) ti pi
      = Some (Partition.set_election p (Partition.leader p) false).
Proof.
  intros Hbc Hc.
  destruct (buildCluster_inv brokerCount Hbc topicsConfig c Hc) as (ts & -> & Hts).
  intros ti pi p Hp.
  rewrite partition_at_elect, Hp. simpl.
  destruct (built_partition_at _ _ _ _ _ _ _ Hts Hp) as (cfg & _ & _ & ->).
  simpl. split; [apply head_lookup|].
  unfold elect_partition. simpl.
  rewrite replica_ids_head by lia.
  set (i := Z.of_nat pi mod brokerCount).
  assert (Hi : 0 <= i < brokerCount) by (apply Z.mod_pos_bound; lia).
  replace (hasLeaderAlive _ _) with true; [done|].
  symmetry. apply hasLeaderAlive_true. simpl. rewrite replica_ids_head by lia.
  eexists. split; [reflexivity|]. split; [done|].
  apply elem_of_upSet. exists (build_broker i).
  split; [by apply built_brokers_elem|done].
Qed.

Lemma electLeaders_after_build_witness :
  ∃ c, buildCluster 3 [TopicConfig.mk "t" 3 2] = Some c
    ∧ (Partition.leader <$> partition_at (electLeaders c) 0 2) = Some (Some "b2").
Proof.
  destruct (buildCluster 3 [TopicConfig.mk "t" 3 2]) as [c|] eqn:Hc;
    [|by vm_compute in Hc].
  exists c. split; [done|].
  pose proof (electLeaders_after_build 3 [TopicConfig.mk "t" 3 2] c
                ltac:(lia) Hc) as Hel.
  vm_compute in Hc. injection Hc as <-.
  destruct (Hel 0%nat 2%nat _ eq_refl) as [_ ->]. reflexivity.
Defined.

(** X7. [toggleBroker] throws exactly when no broker has the given id.
    Otherwise it negates the [up] flag of the first broker with that id and
    of no other, and changes no topic or partition beyond leaders and
    [offline] flags. *)
Theorem toggleBroker_effect (c : Cluster.t) (id : string) :
  (toggleBroker c id = None ↔ ∀ b, b ∈ Cluster.brokers c → Broker.id b ≠ id)
  ∧ ∀ c', toggleBroker c id = Some c' →
      ∃ (i : nat) b,
        Cluster.brokers c !! i = Some b
        ∧ Broker.id b = id
        ∧ (∀ (j : nat) y, Cluster.brokers c !! j = Some y → (j < i)%nat →
             Broker.id y ≠ id)
        ∧ Cluster.brokers c' = <[i := flip_up b]> (Cluster.brokers c)
        ∧ Forall2 same_topic_frame (Cluster.topics c) (Cluster.topics c').
Proof.
  split.
  - unfold toggleBroker. rewrite cloneCluster_id.
    destruct (list_find _ _) as [[i b]|] eqn:Hf; simpl.
    + split; [done|]. intros Hno. apply list_find_Some in Hf as (Hi & Hid & _).
      destruct (Hno b); [by eapply list_elem_of_lookup_2|done].
    + split; [|done]. intros _. apply list_find_None in Hf.
      by rewrite Forall_forall in Hf.
  - intros c' Ht. apply toggleBroker_Some in Ht as (i & b & Hf & ->).
    apply list_find_Some in Hf as (Hi & Hid & Hfirst).
    exists i, b. do 3 (split; [done|]). split; [done|]. simpl.
    apply Forall2_fmap_r, Forall_Forall2_diag, Forall_forall. intros t _.
    repeat split.
    simpl. apply Forall2_fmap_r, Forall_Forall2_diag, Forall_forall. intros p _.
    by repeat split.
Qed.

(** X8. Toggling the same broker twice in a row gives back the brokers
    as they were, flags included. *)
Theorem toggleBroker_twice (c c1 : Cluster.t) (id : string) :
  toggleBroker c id = Some c1 →
  ∃ c2, toggleBroker c1 id = Some c2 ∧ Cluster.brokers c2 = Cluster.brokers c.
Proof.
  intros Ht. apply toggleBroker_Some in Ht as (i & b & Hf & ->).
  pose proof Hf as Hf'. apply list_find_Some in Hf' as (Hi & Hid & _).
  eexists. split.
  - apply toggleBroker_Some. exists i, (flip_up b). split; [|reflexivity].
    simpl. eapply list_find_insert_same; [exact Hf|done].
  - simpl. rewrite list_insert_insert_eq, flip_up_involutive.
    by apply list_insert_id.
Qed.

Lemma toggleBroker_twice_witness :
  ∃ c1 c2, toggleBroker b0_down_cluster "b0" = Some c1
    ∧ toggleBroker c1 "b0" = Some c2
    ∧ Cluster.brokers c2 = Cluster.brokers b0_down_cluster.
Proof.
  eexists.
  destruct (toggleBroker_twice b0_down_cluster _ "b0" eq_refl) as (c2 & H2 & Hb).
  by exists c2.
Defined.

(** X9. [toggleBroker] keeps a well-formed cluster well formed, and every
    partition of the cluster it returns is election-safe. *)
Theorem toggleBroker_safe (c c' : Cluster.t) (id : string) :
  well_formed c →
  toggleBroker c id = Some c' →
  well_formed c'
  ∧ ∀ ti pi p', partition_at c' ti pi = Some p' → election_safe c' p'.
Proof.
  intros Hwf Ht. split; [by eapply toggleBroker_keeps_well_formed|].
  apply toggleBroker_Some in Ht as (i & b & Hf & ->).
  apply list_find_Some in Hf as (Hi & _ & _).
  intros ti pi p'. apply elect_safe_everywhere.
  apply (well_formed_flags c); [|done]. by apply flip_ids.
Qed.

Lemma toggleBroker_safe_witness :
  ∃ c c', buildCluster 3 [TopicConfig.mk "t" 3 2] = Some c
    ∧ toggleBroker c "b0" = Some c'
    ∧ well_formed c'.
Proof.
  destruct (buildCluster_Some 3 ltac:(lia) [TopicConfig.mk "t" 3 2] ltac:(lia)
              ltac:(repeat constructor; simpl; lia))
    as (ts & Hc & Hts).
  pose proof (built_well_formed 3 _ _ ltac:(lia) Hts) as Hwf.
  vm_compute in Hc. injection Hc as <-.
  eexists _, _. split; [reflexivity|]. split; [reflexivity|].
  eapply (toggleBroker_safe _ _ "b0"); [exact Hwf|reflexivity].
Defined.

Lemma filter_none {A} (P : A → Prop) `{∀ x, Decision (P x)} (l : list A) :
  (∀ x, x ∈ l → ¬ P x) → filter P l = [].
Proof.
  induction l as [|x l IH]; intros Hall; [done|].
  rewrite filter_cons_False by (apply Hall; left).
  apply IH. intros y Hy. apply Hall. by right.
Qed.

Section AllUp.

Variable c : Cluster.t.
Variable up : bool.

Let flagged : Cluster.t :=
  Cluster.mk ((λ b, Broker.mk (Broker.id b) (Broker.name b) up)
                <$> Cluster.brokers c) (Cluster.topics c).

(** Once every flag is [up], a broker id is up exactly when [up] is true
    and the id names a broker. *)
Lemma upSet_flagged r :
  r ∈ upSet flagged ↔ up = true ∧ ∃ b, b ∈ Cluster.brokers c ∧ Broker.id b = r.
Proof using Type.
  rewrite elem_of_upSet. unfold is_up, flagged. simpl. split.
  - intros (b' & Hb' & Hid & Hup). apply list_elem_of_fmap in Hb' as (b & -> & Hb).
    simpl in *. eauto.
  - intros (Hup & b & Hb & Hid). eexists. split; [|split].
    + apply list_elem_of_fmap. by exists b.
    + done.
    + done.
Qed.

Lemma partition_at_setAllUp ti pi :
  partition_at (setAllUp c up) ti pi
  = elect_partition (upSet flagged) <$> partition_at c ti pi.
Proof using Type. rewrite setAllUp_eq. exact (partition_at_elect flagged ti pi). Qed.

End AllUp.

(** X10. [setAllUp(false)] leaves every broker down and every partition
    without leader and offline, whatever the cluster was. *)
Theorem setAllUp_false_offline (c : Cluster.t) :
  (∀ b, b ∈ Cluster.brokers (setAllUp c false) → Broker.up b = false)
  ∧ ∀ ti pi p, partition_at c ti pi = Some p →
      partition_at (setAllUp c false) ti pi
      = Some (Partition.set_election p None true).
Proof.
  split.
  - rewrite setAllUp_eq. simpl. intros b Hb.
    by apply list_elem_of_fmap in Hb as (b0 & -> & _).
  - intros ti pi p Hp. rewrite partition_at_setAllUp, Hp. simpl.
    unfold elect_partition.
    assert (Hnone : ∀ r, r ∉ upSet
              (Cluster.mk ((λ b, Broker.mk (Broker.id b) (Broker.name b) false)
                             <$> Cluster.brokers c) (Cluster.topics c))).
    { intros r Hr. by apply upSet_flagged in Hr as [? _]. }
    replace (hasLeaderAlive _ p) with false.
    + simpl. replace (aliveReplicas _ p) with (@nil string); [done|].
      symmetry. unfold aliveReplicas. apply filter_none.
      intros r _. apply Hnone.
    + symmetry. apply not_true_iff_false. rewrite hasLeaderAlive_true.
      intros (l & _ & _ & Hin). by apply Hnone in Hin.
Qed.

(** X11. On a well-formed cluster [setAllUp(true)] leaves no partition
    offline; a partition that had a leader keeps it (leadership does not
    return to the preferred replica), one that had none gets its first
    replica. *)
Theorem setAllUp_true_heals (c : Cluster.t) (ti pi : nat) (p : Partition.t) :
  well_formed c →
  partition_at c ti pi = Some p →
  ∃ l, (match Partition.leader p with
        | Some l0 => l = l0
        | None => Partition.replicas p !! 0%nat = Some l
        end)
    ∧ partition_at (setAllUp c true) ti pi
      = Some (Partition.set_election p (Some l) false).
Proof.
  intros (Hne & _ & Hlead & Hrep & Hdist) Hp.
  rewrite partition_at_setAllUp, Hp. simpl.
  set (flagged := Cluster.mk _ _).
  assert (Hall : ∀ r, r ∈ Partition.replicas p → r ∈ upSet flagged ∧ r ≠ EmptyString).
  { intros r Hr. destruct (Hrep _ _ _ _ Hp Hr) as (b & Hb & <-).
    split; [|by apply Hne]. apply upSet_flagged. eauto. }
  unfold elect_partition.
  destruct (Partition.leader p) as [l|] eqn:Hl.
  - exists l. split; [done|].
    destruct (Hall l (Hlead _ _ _ _ Hp Hl)) as [Hup Hnempty].
    replace (hasLeaderAlive _ p) with true.
    + simpl. unfold JS.truthy_string. by rewrite bool_decide_true.
    + symmetry. apply hasLeaderAlive_true. eauto.
  - destruct (Hdist _ _ _ Hp) as [Hnil _].
    destruct (Partition.replicas p) as [|r rs] eqn:Hrs; [done|].
    exists r. split; [done|].
    destruct (Hall r ltac:(left)) as [Hup Hnempty].
    unfold hasLeaderAlive. rewrite Hl. simpl.
    unfold aliveReplicas. rewrite Hrs, filter_cons_True by done. simpl.
    unfold JS.truthy_string. by rewrite bool_decide_true.
Qed.

Lemma setAllUp_true_heals_witness :
  ∃ c p', buildCluster 3 [TopicConfig.mk "t" 3 2] = Some c
    ∧ partition_at (setAllUp (setAllUp c false) true) 0 0 = Some p'
    ∧ Partition.offline p' = Some false.
Proof.
  destruct (buildCluster_Some 3 ltac:(lia) [TopicConfig.mk "t" 3 2] ltac:(lia)
              ltac:(repeat constructor; simpl; lia))
    as (ts & Hc & Hts).
  pose proof (built_well_formed 3 _ _ ltac:(lia) Hts) as Hwf.
  vm_compute in Hc. injection Hc as <-.
  apply (setAllUp_keeps_well_formed _ false) in Hwf.
  destruct (setAllUp_true_heals _ 0 0 _ Hwf eq_refl) as (l & _ & Heq).
  eexists _, _. split; [reflexivity|]. split; [exact Heq|reflexivity].
Defined.

(** X12. [failRandomBroker] returns the cluster unchanged when no broker
    is up. Otherwise, broker ids being pairwise distinct, it does not
    throw and the number of brokers that are up goes down by exactly one. *)
Theorem failRandomBroker_effect (rnd : Z → Z) (c : Cluster.t) :
  random_in_range rnd →
  broker_ids_distinct c →
  (up_count c = 0%nat → failRandomBroker rnd c = Some c)
  ∧ (up_count c ≠ 0%nat →
     ∃ c', failRandomBroker rnd c = Some c' ∧ S (up_count c') = up_count c).
Proof.
  intros Hrnd Hnd. unfold failRandomBroker, up_count.
  set (ups := filter (λ b, Broker.up b = true) (Cluster.brokers c)).
  split; intros Hups; case_decide; try done.
  specialize (Hrnd (Z.of_nat (length ups)) ltac:(lia)).
  simpl. case_decide; [|lia].
  destruct (lookup_lt_is_Some_2 ups (Z.to_nat (rnd (Z.of_nat (length ups))))
              ltac:(lia)) as [b Hb].
  rewrite Hb. simpl.
  apply list_elem_of_lookup_2 in Hb. apply list_elem_of_filter in Hb as [Hup Hin].
  apply list_elem_of_lookup_1 in Hin as [i Hi].
  eexists. split.
  - apply toggleBroker_Some. exists i, b. split; [|reflexivity].
    by apply list_find_own_id.
  - simpl. by apply up_count_down.
Qed.

Lemma failRandomBroker_effect_witness :
  ∃ c', failRandomBroker (λ _, 0) b0_down_cluster = Some c'
    ∧ S (up_count c') = up_count b0_down_cluster.
Proof.
  destruct (failRandomBroker_effect (λ _, 0) b0_down_cluster) as [_ Hdown].
  - intros n Hn. lia.
  - apply (bool_decide_unpack _). vm_compute. exact I.
  - apply Hdown. by vm_compute.
Defined.

(** ** Views on the cluster *)

Section Views.

Lemma found_up_is_up c r : found_up c r = true → is_up c r.
Proof.
  unfold found_up. destruct (list_find _ _) as [[i b]|] eqn:Hf; [|done].
  simpl. intros Hup. apply list_find_Some in Hf as (Hi & Hid & _).
  exists b. split; [by eapply list_elem_of_lookup_2|done].
Qed.

Lemma is_up_found_up c r :
  broker_ids_distinct c → is_up c r → found_up c r = true.
Proof.
  intros Hnd (b & Hb & Hid & Hup). apply list_elem_of_lookup_1 in Hb as [i Hi].
  unfold found_up. subst r. by rewrite (list_find_own_id _ i b Hnd Hi).
Qed.

Lemma partitionsOnBroker_elem c brokerId p :
  p ∈ partitionsOnBroker c brokerId ↔
  ∃ ti pi, partition_at c ti pi = Some p
    ∧ (Partition.leader p = Some brokerId ∨ brokerId ∈ Partition.replicas p).
Proof.
  unfold partitionsOnBroker. rewrite list_elem_of_bind. split.
  - intros (t & Hp & Ht). apply list_elem_of_filter in Hp as [Hhost Hp].
    apply list_elem_of_lookup_1 in Ht as [ti Hti].
    apply list_elem_of_lookup_1 in Hp as [pi Hpi].
    exists ti, pi. split; [|done]. apply partition_at_Some. eauto.
  - intros (ti & pi & Hp & Hhost). apply partition_at_Some in Hp as (t & Ht & Hp).
    exists t. split; [|by eapply list_elem_of_lookup_2].
    apply list_elem_of_filter. split; [done|by eapply list_elem_of_lookup_2].
Qed.

(** Which brokers the builder puts a partition on. *)
Lemma replica_ids_hosts brokerCount rf p i :
  1 <= brokerCount → 0 <= rf <= brokerCount → 0 <= i < brokerCount →
  Broker.id (build_broker i) ∈ replica_ids brokerCount rf p
  ↔ (i - p) mod brokerCount < rf.
Proof.
  intros Hbc Hrf Hi. unfold replica_ids. rewrite list_elem_of_fmap.
  assert (Hl : 0 <= p mod brokerCount < brokerCount)
    by (apply Z.mod_pos_bound; lia).
  assert (Hk : (i - p) mod brokerCount
               = (i - p mod brokerCount) mod brokerCount).
  { by rewrite Zminus_mod_idemp_r. }
  rewrite Hk. generalize dependent (p mod brokerCount). intros l Hl _.
  assert (Hd : (i - l) mod brokerCount = if i - l <? 0 then i - l + brokerCount else i - l).
  { destruct (Z.ltb_spec (i - l) 0).
    - symmetry. apply (Z.mod_unique_pos _ _ (-1)); lia.
    - apply Z.mod_small. lia. }
  split.
  - intros (k & Hid & Hkin). apply build_broker_id_inj in Hid.
    apply elem_of_seqZ in Hkin.
    rewrite (mod_wrap_once brokerCount Hbc (l + k)) in Hid by lia.
    rewrite Hd. repeat case_match; lia.
  - intros Hlt. exists ((i - l) mod brokerCount). split.
    + assert ((l + (i - l) mod brokerCount) mod brokerCount = i) as ->; [|done].
      rewrite Hd. destruct (Z.ltb_spec (i - l) 0).
      * rewrite (mod_wrap_once brokerCount Hbc) by lia. case_match; lia.
      * rewrite (mod_wrap_once brokerCount Hbc) by lia. case_match; lia.
    + apply elem_of_seqZ. rewrite Hd in *. case_match; lia.
Qed.

End Views.

(** X13. When broker ids are pairwise distinct, the in-sync replicas shown
    for a partition are the alive replicas the election works with: the
    replicas, in order, whose broker is up. *)
Theorem displayed_isr_alive (c : Cluster.t) (p : Partition.t) :
  broker_ids_distinct c →
  displayed_isr c p = aliveReplicas (upSet c) p.
Proof.
  intros Hnd. unfold displayed_isr, aliveReplicas.
  apply list_filter_iff. intros r. rewrite elem_of_upSet. split.
  - apply found_up_is_up.
  - by apply is_up_found_up.
Qed.

Lemma displayed_isr_alive_witness :
  displayed_isr b0_down_cluster
    (Partition.mk 0 "t" (Some "b0") ["b0"; "b1"; "b2"] None 0)
  = ["b1"; "b2"]%string.
Proof.
  rewrite (displayed_isr_alive b0_down_cluster).
  - by vm_compute.
  - apply (bool_decide_unpack _). vm_compute. exact I.
Defined.

(** X14. [partitionsOnBroker] returns exactly the partitions of the
    cluster that the broker leads or replicates; in a cluster where every
    leader is one of its replicas these are the partitions that have the
    broker among their replicas. *)
Theorem partitionsOnBroker_hosted (c : Cluster.t) (brokerId : string)
    (p : Partition.t) :
  (p ∈ partitionsOnBroker c brokerId ↔
   ∃ ti pi, partition_at c ti pi = Some p
     ∧ (Partition.leader p = Some brokerId ∨ brokerId ∈ Partition.replicas p))
  ∧ (leaders_among_replicas c →
     (p ∈ partitionsOnBroker c brokerId ↔
      ∃ ti pi, partition_at c ti pi = Some p ∧ brokerId ∈ Partition.replicas p)).
Proof.
  split; [apply partitionsOnBroker_elem|].
  intros Hlead. rewrite partitionsOnBroker_elem. split.
  - intros (ti & pi & Hp & [Hl|Hr]); exists ti, pi; (split; [done|]); [|done].
    by eapply Hlead.
  - intros (ti & pi & Hp & Hr). exists ti, pi. split; [done|]. by right.
Qed.

(** X15. In every cluster [buildCluster] returns for [brokerCount ≥ 1],
    the partition at position [pi] of the topic of configuration [cfg] is
    among the partitions on the broker of index [i] exactly when
    [(i - pi) mod brokerCount] is below the clamped replication factor. *)
Theorem buildCluster_placement
    (brokerCount : Z) (topicsConfig : list TopicConfig.t) (i : Z)
    (c : Cluster.t) :
  1 <= brokerCount →
  0 <= i < brokerCount →
  buildCluster brokerCount topicsConfig = Some c →
  ∀ ti pi cfg p,
    topicsConfig !! ti = Some cfg →
    partition_at c ti pi = Some p →
    (p ∈ partitionsOnBroker c (Broker.id (build_broker i))
     ↔ (i - Z.of_nat pi) mod brokerCount
       < clamp (TopicConfig.replicationFactor cfg) 1 brokerCount).
Proof.
  intros Hbc Hi Hc.
  destruct (buildCluster_inv brokerCount Hbc topicsConfig c Hc) as (ts & -> & Hts).
  intros ti pi cfg p Hcfg Hp.
  destruct (built_partition_at _ _ _ _ _ _ _ Hts Hp) as (cfg' & Hcfg' & _ & Hpeq).
  assert (cfg' = cfg) as -> by congruence.
  rewrite clamp_max_min in Hpeq by done.
  set (rf := clamp (TopicConfig.replicationFactor cfg) 1 brokerCount) in *.
  assert (Hrf : 1 <= rf <= brokerCount) by (unfold rf, clamp; repeat case_match; lia).
  rewrite <- (replica_ids_hosts brokerCount rf (Z.of_nat pi) i) by lia.
  rewrite partitionsOnBroker_elem. split.
  - intros (ti' & pi' & _ & [Hl|Hr]).
    + subst p. simpl in Hl. by apply head_Some_elem_of.
    + by subst p.
  - intros Hr. exists ti, pi. split; [done|]. right. by subst p.
Qed.

Lemma buildCluster_placement_witness :
  ∃ c p, buildCluster 3 [TopicConfig.mk "t" 3 2] = Some c
    ∧ partition_at c 0 2 = Some p
    ∧ p ∈ partitionsOnBroker c "b0".
Proof.
  destruct (buildCluster 3 [TopicConfig.mk "t" 3 2]) as [c|] eqn:Hc;
    [|by vm_compute in Hc].
  pose proof (buildCluster_placement 3 [TopicConfig.mk "t" 3 2] 0 c
                ltac:(lia) ltac:(lia) Hc) as Hplace.
  vm_compute in Hc. injection Hc as <-.
  eexists _, _. split; [reflexivity|]. split; [reflexivity|].
  apply (Hplace 0%nat 2%nat (TopicConfig.mk "t" 3 2)); [reflexivity..|].
  by vm_compute.
Defined.

(** ** Producer, continued *)

Section ProduceMore.

Lemma set_endOffset_same p : Partition.set_endOffset p (Partition.endOffset p + 0) = p.
Proof. destruct p. unfold Partition.set_endOffset. simpl. by rewrite Z.add_0_r. Qed.

(** The cluster [produce] returns when the index it computes names a
    partition of the topic it found. *)
Lemma produce_at rnd produceTopic produceKey prev (ti : nat) t z part :
  first_topic prev produceTopic = Some (ti, t) →
  (if JS.truthy_string produceKey
   then hashKeyToPartition produceKey (Z.of_nat (length (Topic.partitions t)))
   else Some (rnd (Z.of_nat (length (Topic.partitions t))))) = Some z →
  0 <= z →
  Topic.partitions t !! Z.to_nat z = Some part →
  produce rnd produceTopic produceKey prev
  = Some (Cluster.mk (Cluster.brokers prev)
            (<[ti := Topic.set_partitions t
                       (<[Z.to_nat z :=
                            Partition.set_endOffset part (Partition.endOffset part + 1)]>
                          (Topic.partitions t))]>
               (Cluster.topics prev))).
Proof.
  intros Hf Hz Hz0 Hpart. unfold produce. rewrite cloneCluster_id.
  fold (first_topic prev produceTopic). rewrite Hf, Hz. simpl.
  case_decide; [|lia]. by rewrite Hpart.
Qed.

(** [produce] either returns its argument or appends to one partition of
    the topic it found. *)
Lemma produce_inv rnd produceTopic produceKey prev next :
  produce rnd produceTopic produceKey prev = Some next →
  next = prev
  ∨ ∃ (ti pi : nat) t,
      first_topic prev produceTopic = Some (ti, t) ∧ appended_at prev ti pi next.
Proof.
  unfold produce. rewrite cloneCluster_id.
  fold (first_topic prev produceTopic).
  destruct (first_topic prev produceTopic) as [[ti t]|] eqn:Hf.
  - destruct (if JS.truthy_string produceKey then _ else _) as [z|]; [|done].
    simpl. case_decide; [|done].
    destruct (Topic.partitions t !! Z.to_nat z) as [part|] eqn:Hpart; [|done].
    simpl. intros [= <-]. right. exists ti, (Z.to_nat z), t. split; [done|].
    exists t, part. split; [|done].
    by apply list_find_Some in Hf as (Ht & _).
  - intros [= <-]. by left.
Qed.

(** The partitions of a cluster after an append, position by position. *)
Lemma appended_partition_at prev ti pi next ti' pi' :
  appended_at prev ti pi next →
  partition_at next ti' pi'
  = (λ p, if decide (ti' = ti ∧ pi' = pi)
          then Partition.set_endOffset p (Partition.endOffset p + 1)
          else p) <$> partition_at prev ti' pi'.
Proof.
  intros (t & p & Ht & Hp & ->). unfold partition_at. simpl.
  destruct (decide (ti' = ti)) as [->|Hti].
  - rewrite list_lookup_insert_eq by by eapply lookup_lt_Some.
    rewrite Ht. simpl.
    destruct (decide (pi' = pi)) as [->|Hpi].
    + rewrite list_lookup_insert_eq by by eapply lookup_lt_Some.
      rewrite Hp. simpl. by rewrite decide_True.
    + rewrite list_lookup_insert_ne by done.
      destruct (Topic.partitions t !! pi'); simpl; [|done].
      rewrite decide_False; [done|]. by intros [_ ?].
  - rewrite list_lookup_insert_ne by done.
    destruct (Cluster.topics prev !! ti') as [t'|]; simpl; [|done].
    destruct (Topic.partitions t' !! pi'); simpl; [|done].
    rewrite decide_False; [done|]. by intros [? _].
Qed.

Lemma appended_brokers prev ti pi next :
  appended_at prev ti pi next → Cluster.brokers next = Cluster.brokers prev.
Proof. by intros (t & p & _ & _ & ->). Qed.

(** A change of end offsets keeps the cluster well formed. *)
Lemma well_formed_offsets prev next :
  Cluster.brokers next = Cluster.brokers prev →
  (∀ ti pi p', partition_at next ti pi = Some p' →
     ∃ p, partition_at prev ti pi = Some p
       ∧ Partition.leader p' = Partition.leader p
       ∧ Partition.replicas p' = Partition.replicas p) →
  well_formed prev → well_formed next.
Proof.
  intros Hb Hparts (Hne & Hnd & Hlead & Hrep & Hdist).
  split; [|split; [|split; [|split]]].
  - unfold broker_ids_nonempty. by rewrite Hb.
  - unfold broker_ids_distinct. by rewrite Hb.
  - intros ti pi p' l Hp' Hl. destruct (Hparts _ _ _ Hp') as (p & Hp & Hl' & Hr').
    rewrite Hr'. eapply Hlead; [done|]. by rewrite <- Hl'.
  - intros ti pi p' r Hp' Hr. destruct (Hparts _ _ _ Hp') as (p & Hp & Hl' & Hr').
    rewrite Hb. eapply Hrep; [done|]. by rewrite <- Hr'.
  - intros ti pi p' Hp'. destruct (Hparts _ _ _ Hp') as (p & Hp & Hl' & Hr').
    rewrite Hr'. by eapply Hdist.
Qed.

End ProduceMore.

(** X16. Whenever [produce] returns, the brokers are unchanged, every
    partition is where it was with the same fields except its end offset,
    which is the same or larger by 1, and a well-formed cluster stays well
    formed. *)
Theorem produce_monotone (rnd : Z → Z) (produceTopic produceKey : string)
    (prev next : Cluster.t) :
  produce rnd produceTopic produceKey prev = Some next →
  Cluster.brokers next = Cluster.brokers prev
  ∧ (∀ ti pi, ∃ d, (d = 0 ∨ d = 1)
       ∧ partition_at next ti pi
         = (λ p, Partition.set_endOffset p (Partition.endOffset p + d))
             <$> partition_at prev ti pi)
  ∧ (well_formed prev → well_formed next).
Proof.
  intros Hp.
  assert (Hrel : Cluster.brokers next = Cluster.brokers prev
                 ∧ ∀ ti pi, ∃ d, (d = 0 ∨ d = 1)
                     ∧ partition_at next ti pi
                       = (λ p, Partition.set_endOffset p (Partition.endOffset p + d))
                           <$> partition_at prev ti pi).
  { apply produce_inv in Hp as [->|(ti & pi & t & _ & Happ)].
    - split; [done|]. intros ti pi. exists 0. split; [by left|].
      destruct (partition_at prev ti pi); simpl; [|done].
      by rewrite set_endOffset_same.
    - split; [by eapply appended_brokers|]. intros ti' pi'.
      rewrite (appended_partition_at _ _ _ _ ti' pi' Happ).
      destruct (decide (ti' = ti ∧ pi' = pi)).
      + exists 1. split; [by right|]. done.
      + exists 0. split; [by left|].
        destruct (partition_at prev ti' pi'); simpl; [|done].
        by rewrite set_endOffset_same. }
  destruct Hrel as [Hb Hparts]. split; [done|]. split; [done|].
  apply well_formed_offsets; [done|].
  intros ti pi p' Hp'. destruct (Hparts ti pi) as (d & _ & Heq).
  rewrite Heq in Hp'. destruct (partition_at prev ti pi) as [p|]; [|done].
  injection Hp' as <-. by exists p.
Qed.

Lemma produce_monotone_witness :
  ∃ next, produce (λ _, 0) "t" "" cluster_three = Some next
    ∧ Cluster.brokers next = Cluster.brokers cluster_three.
Proof.
  eexists. split; [reflexivity|].
  by destruct (produce_monotone (λ _, 0) "t" "" cluster_three _ eq_refl) as [Hb _].
Defined.

(** X17. Two [produce] calls in a row with the same non-empty key, on a
    topic that has at least one partition, append to the same partition:
    the one whose index is [hashKeyToPartition key partitionCount]. Its end
    offset is larger by 2 afterwards and no other partition has changed. *)
Theorem produce_sticky (rnd : Z → Z) (produceTopic produceKey : string)
    (prev : Cluster.t) (ti : nat) (t : Topic.t) :
  produceKey ≠ EmptyString →
  first_topic prev produceTopic = Some (ti, t) →
  Topic.partitions t ≠ [] →
  ∃ (pi : nat) next1 next2,
    hashKeyToPartition produceKey (Z.of_nat (length (Topic.partitions t)))
    = Some (Z.of_nat pi)
    ∧ produce rnd produceTopic produceKey prev = Some next1
    ∧ produce rnd produceTopic produceKey next1 = Some next2
    ∧ ∀ ti' pi',
        partition_at next2 ti' pi'
        = (λ p, if decide (ti' = ti ∧ pi' = pi)
                then Partition.set_endOffset p (Partition.endOffset p + 2)
                else p) <$> partition_at prev ti' pi'.
Proof.
  intros Hkey Hf Hparts.
  set (n := length (Topic.partitions t)).
  assert (Hn : (0 < n)%nat).
  { unfold n. destruct (Topic.partitions t); [done|simpl; lia]. }
  pose proof (hashKeyToPartition_mod produceKey (Z.of_nat n) ltac:(lia)) as Hh.
  set (z := Z.abs (rolling_hash produceKey) mod Z.of_nat n) in *.
  assert (Hz : 0 <= z < Z.of_nat n) by (apply Z.mod_pos_bound; lia).
  assert (Htr : JS.truthy_string produceKey = true)
    by (unfold JS.truthy_string; by rewrite bool_decide_true).
  destruct (lookup_lt_is_Some_2 (Topic.partitions t) (Z.to_nat z) ltac:(lia))
    as [part Hpart].
  pose proof Hf as Hf'. apply list_find_Some in Hf' as (Ht & Hname & _).
  set (part1 := Partition.set_endOffset part (Partition.endOffset part + 1)).
  set (t1 := Topic.set_partitions t (<[Z.to_nat z := part1]> (Topic.partitions t))).
  set (next1 := Cluster.mk (Cluster.brokers prev) (<[ti := t1]> (Cluster.topics prev))).
  assert (H1 : produce rnd produceTopic produceKey prev = Some next1).
  { apply (produce_at _ _ _ _ ti t z part); [done| |lia|done].
    fold n. by rewrite Htr. }
  assert (Hf1 : first_topic next1 produceTopic = Some (ti, t1)).
  { unfold first_topic, next1. simpl.
    eapply list_find_insert_same; [exact Hf|done]. }
  assert (Hlen1 : length (Topic.partitions t1) = n).
  { unfold t1. simpl. by rewrite length_insert. }
  assert (Hpart1 : Topic.partitions t1 !! Z.to_nat z = Some part1).
  { unfold t1. simpl. apply list_lookup_insert_eq. fold n. lia. }
  pose proof (produce_at rnd produceTopic produceKey next1 ti t1 z part1 Hf1) as H2.
  rewrite Hlen1, Htr in H2. specialize (H2 Hh ltac:(lia) Hpart1).
  eexists (Z.to_nat z), next1, _.
  split; [by rewrite Z2Nat.id by lia|]. split; [exact H1|]. split; [exact H2|].
  intros ti' pi'.
  rewrite (appended_partition_at next1 ti (Z.to_nat z) _ ti' pi').
  - rewrite (appended_partition_at prev ti (Z.to_nat z) next1 ti' pi').
    + destruct (partition_at prev ti' pi') as [p|]; simpl; [|done].
      case_decide; [|done]. f_equal. unfold Partition.set_endOffset. simpl.
      f_equal. lia.
    + by exists t, part.
  - exists t1, part1. split; [|done]. unfold next1. simpl.
    apply list_lookup_insert_eq. by eapply lookup_lt_Some.
Qed.

Lemma produce_sticky_witness :
  ∃ next1 next2,
    produce (λ _, 0) "t" "user-42" cluster_three = Some next1
    ∧ produce (λ _, 0) "t" "user-42" next1 = Some next2
    ∧ (Partition.endOffset <$> partition_at next2 0 1) = Some 2.
Proof.
  destruct (produce_sticky (λ _, 0) "t" "user-42" cluster_three 0
              (Topic.mk "t" [Partition.mk 0 "t" (Some "b0") ["b0"] None 5;
                             Partition.mk 1 "t" (Some "b0") ["b0"] None 0;
                             Partition.mk 2 "t" (Some "b0") ["b0"] None 1] "#22c55e"))
    as (pi & next1 & next2 & Hpi & H1 & H2 & Hat); [done..|].
  exists next1, next2. split; [exact H1|]. split; [exact H2|].
  assert (Hone : Some 1 = Some (Z.of_nat pi)) by (rewrite <- Hpi; by vm_compute).
  injection Hone as Hone. assert (pi = 1%nat) as -> by lia.
  rewrite Hat. reflexivity.
Defined.

(** ** Group coordinator, continued *)

Section ConsumeMore.

Variable cluster : Cluster.t.
Variable groupId : string.

Let kps := keyed_partitions (Cluster.topics cluster).
Let found := list_find (λ x : ConsumerGroup.t, ConsumerGroup.id x = groupId).

(** One visit raises one key, by at most 1. *)
Lemma committed_consume_key_le pk e g k :
  committed (consume_key pk e g) k
  <= committed g k + (if decide (pk = k) then 1 else 0).
Proof using Type.
  unfold committed at 1. rewrite consume_key_offsets.
  case_bool_decide as Hk; simpl.
  - subst k. rewrite decide_True by done.
    destruct (JS.truthy _); simpl; [|unfold committed; lia].
    destruct (committed g pk <? e); simpl; [lia|unfold committed; lia].
  - fold (committed g k). case_decide; lia.
Qed.

Lemma committed_consume_keys_le l k :
  ∀ g, committed (consume_keys l g) k
       <= committed g k + Z.of_nat (length (filter (λ x, x = k) l.*1)).
Proof using Type.
  induction l as [|[pk e] l IH]; intros g; [simpl; lia|].
  change (consume_keys ((pk, e) :: l) g) with (consume_keys l (consume_key pk e g)).
  etrans; [apply IH|]. pose proof (committed_consume_key_le pk e g k) as Hle.
  rewrite fmap_cons, filter_cons. simpl.
  destruct (decide (pk = k)); simpl length; lia.
Qed.

Hypothesis keys_distinct : NoDup kps.*1.

(** The committed offset of an assigned partition after [n] steps. *)
Lemma consume_steps_exact n :
  ∀ groups (i : nat) g, found groups = Some (i, g) →
    ∃ gn, consume_steps n groups cluster groupId !! i = Some gn
      ∧ ConsumerGroup.assignments gn = ConsumerGroup.assignments g
      ∧ ∀ pk e, (pk, e) ∈ kps →
          JS.truthy (ConsumerGroup.assignments g !! pk) = true →
          committed g pk <= e →
          committed gn pk = Z.min (committed g pk + Z.of_nat n) e.
Proof using keys_distinct.
  induction n as [|n IH]; intros groups i g Hf.
  - exists g. apply list_find_Some in Hf as Hf'. destruct Hf' as [Hi _].
    split; [done|]. split; [done|]. intros pk e _ _ Hle. lia.
  - simpl. destruct (consumeOnce_found cluster groupId groups i g Hf) as [Hrun _].
    rewrite Hrun. fold kps.
    destruct (consume_keys_frame kps g) as (Hid & _ & Hasg).
    destruct (IH _ i _ (found_insert groupId groups i g _ Hf Hid))
      as (gn & Hgn & Hasgn & Hexact).
    exists gn. split; [done|]. split; [congruence|].
    intros pk e Hin Htr Hle.
    pose proof (consume_keys_step cluster keys_distinct g pk e Hin) as Hstep.
    fold kps in Hstep. rewrite Htr in Hstep. simpl in Hstep.
    assert (Hc1 : committed (consume_keys kps g) pk
                  = if committed g pk <? e then committed g pk + 1 else committed g pk).
    { unfold committed at 1. rewrite Hstep. by destruct (committed g pk <? e). }
    rewrite (Hexact pk e Hin); [| by rewrite Hasg |];
      rewrite Hc1; destruct (Z.ltb_spec (committed g pk) e); lia.
Qed.

End ConsumeMore.

(** X18. With pairwise distinct partition keys, a partition that is
    assigned to a consumer with a non-empty id and whose committed offset
    is at most its end offset has, after [n] calls of [consumeOnce] on the
    same cluster, committed offset [min(committed + n, endOffset)]: its lag
    goes down by 1 per call until it is 0. *)
Theorem consume_converges
    (groups : list ConsumerGroup.t) (cluster : Cluster.t) (groupId : string)
    (i : nat) (g : ConsumerGroup.t) (ti pi : nat) (t : Topic.t)
    (p : Partition.t) (a : string) (n : nat) :
  list_find (λ x, ConsumerGroup.id x = groupId) groups = Some (i, g) →
  NoDup (allParts (Cluster.topics cluster)) →
  Cluster.topics cluster !! ti = Some t →
  Topic.partitions t !! pi = Some p →
  ConsumerGroup.assignments g !! partitionKey (Topic.name t) (Partition.id p)
  = Some a →
  a ≠ EmptyString →
  0 <= computeLagFor g t p →
  ∃ gn, consume_steps n groups cluster groupId !! i = Some gn
    ∧ committed gn (partitionKey (Topic.name t) (Partition.id p))
      = Z.min (committed g (partitionKey (Topic.name t) (Partition.id p))
               + Z.of_nat n)
          (Partition.endOffset p)
    ∧ computeLagFor gn t p = Z.max 0 (computeLagFor g t p - Z.of_nat n).
Proof.
  intros Hf Hkeys Ht Hp Ha Hne Hlag. rewrite allParts_keyed in Hkeys.
  destruct (consume_steps_exact cluster groupId Hkeys n groups i g Hf)
    as (gn & Hgn & _ & Hexact).
  exists gn. split; [exact Hgn|].
  unfold computeLagFor in *.
  set (pk := partitionKey (Topic.name t) (Partition.id p)) in *.
  assert (Hc : committed gn pk = Z.min (committed g pk + Z.of_nat n)
                                   (Partition.endOffset p)).
  { apply Hexact.
    - by apply (keyed_partitions_lookup _ ti pi).
    - rewrite Ha. simpl. unfold JS.truthy_string. by rewrite bool_decide_true.
    - lia. }
  split; [exact Hc|]. rewrite Hc. lia.
Qed.

Lemma consume_converges_witness :
  ∃ g3 t p,
    Cluster.topics cluster_three !! 0%nat = Some t
    ∧ Topic.partitions t !! 0%nat = Some p
    ∧ consume_steps 3 [group_assigned] cluster_three "g1" !! 0%nat = Some g3
    ∧ computeLagFor g3 t p = 2.
Proof.
  pose (p0 := Partition.mk 0 "t" (Some "b0") ["b0"] None 5).
  pose (t0 := Topic.mk "t" [p0; Partition.mk 1 "t" (Some "b0") ["b0"] None 0;
                            Partition.mk 2 "t" (Some "b0") ["b0"] None 1] "#22c55e").
  destruct (consume_converges [group_assigned] cluster_three "g1" 0 group_assigned
              0 0 t0 p0 "c1" 3 eq_refl) as (g3 & H3 & _ & Hlag).
  - apply (bool_decide_unpack _). vm_compute. exact I.
  - reflexivity.
  - reflexivity.
  - reflexivity.
  - done.
  - by vm_compute.
  - exists g3, t0, p0. do 2 (split; [reflexivity|]). split; [exact H3|].
    rewrite Hlag. by vm_compute.
Defined.

(** X19. [consumeOnce] keeps the number of groups; it changes nothing
    when no group has the given id; it changes no group but the first one
    with that id, and of that group only the offsets; no committed offset
    decreases, and the offset of a key goes up by at most the number of
    partitions carrying that key. *)
Theorem consumeOnce_frame
    (groups : list ConsumerGroup.t) (cluster : Cluster.t) (groupId : string) :
  length (consumeOnce groups cluster groupId) = length groups
  ∧ ((∀ g, g ∈ groups → ConsumerGroup.id g ≠ groupId) →
     consumeOnce groups cluster groupId = groups)
  ∧ ∀ (j : nat) g, groups !! j = Some g →
      ∃ g', consumeOnce groups cluster groupId !! j = Some g'
        ∧ ConsumerGroup.id g' = ConsumerGroup.id g
        ∧ ConsumerGroup.members g' = ConsumerGroup.members g
        ∧ ConsumerGroup.assignments g' = ConsumerGroup.assignments g
        ∧ (∀ k, committed g k <= committed g' k
                <= committed g k + Z.of_nat (key_count (Cluster.topics cluster) k))
        ∧ (list_find (λ x, ConsumerGroup.id x = groupId) groups ≠ Some (j, g) →
           g' = g).
Proof.
  unfold consumeOnce.
  destruct (list_find _ groups) as [[i g0]|] eqn:Hf.
  - pose proof Hf as Hf'. apply list_find_Some in Hf' as (Hi & Hid & _).
    split; [by rewrite length_insert|]. split.
    { intros Hno. destruct (Hno g0); [by eapply list_elem_of_lookup_2|done]. }
    intros j g Hj. destruct (decide (j = i)) as [->|Hji].
    + assert (g = g0) as -> by congruence.
      exists (consume_cluster cluster g0).
      split; [apply list_lookup_insert_eq; by eapply lookup_lt_Some|].
      rewrite consume_cluster_keys.
      destruct (consume_keys_frame (keyed_partitions (Cluster.topics cluster)) g0)
        as (-> & -> & ->).
      do 3 (split; [done|]). split; [|done].
      intros k. split; [apply committed_consume_keys|].
      unfold key_count. rewrite allParts_keyed. apply committed_consume_keys_le.
    + exists g. split; [by rewrite list_lookup_insert_ne|].
      do 3 (split; [done|]). split; [|done]. intros k. lia.
  - split; [done|]. split; [done|]. intros j g Hj. exists g.
    do 4 (split; [done|]). split; [|done]. intros k. lia.
Qed.

Section RebalanceMore.

(** The loop assigns nothing but ids of members. *)
Lemma assign_from_values members pks :
  ∀ i asg asg', assign_from members i pks asg = Some asg' →
    ∀ pk cid, asg' !! pk = Some cid →
      asg !! pk = Some cid ∨ ∃ c, c ∈ members ∧ Consumer.id c = cid.
Proof.
  induction pks as [|pk0 pks IH]; intros i asg asg' Hrun pk cid Hpk;
    simpl in Hrun.
  - injection Hrun as <-. by left.
  - destruct (members !! (i mod length members)%nat) as [c|] eqn:Hc; [|done].
    simpl in Hrun. destruct (IH _ _ _ Hrun pk cid Hpk) as [Hold|Hnew]; [|by right].
    destruct (decide (pk0 = pk)) as [->|Hne].
    + rewrite lookup_insert_eq in Hold. injection Hold as <-.
      right. exists c. split; [by eapply list_elem_of_lookup_2|done].
    + rewrite lookup_insert_ne in Hold by done. by left.
Qed.

Lemma rebalanceGroup_total g topics :
  ∃ g', rebalanceGroup g topics = Some g' ∧ rebalanced topics g g'.
Proof.
  unfold rebalanceGroup. case_decide as Hlen.
  - eexists. split; [reflexivity|]. unfold rebalanced. simpl.
    do 3 (split; [done|]). split.
    + intros pk cid Hpk. by rewrite lookup_empty in Hpk.
    + intros Hne. by apply length_zero_iff_nil in Hlen.
  - assert (Hne : ConsumerGroup.members g ≠ [])
      by (intros Hnil; by rewrite Hnil in Hlen).
    destruct (assign_from_Some _ Hne (allParts topics) 0 ∅) as [asg Hasg].
    rewrite Hasg. simpl. eexists. split; [reflexivity|].
    unfold rebalanced. simpl. do 3 (split; [done|]). split.
    + intros pk cid Hpk. split.
      * assert (Hsome : is_Some (asg !! pk)) by eauto.
        apply (assign_from_dom _ _ _ _ _ Hasg pk) in Hsome as [Hin|Hold]; [done|].
        rewrite lookup_empty in Hold. by destruct Hold.
      * destruct (assign_from_values _ _ _ _ _ Hasg pk cid Hpk) as [Hold|Hnew];
          [by rewrite lookup_empty in Hold|done].
    + intros _ pk Hpk. apply (assign_from_dom _ _ _ _ _ Hasg pk). by left.
Qed.

End RebalanceMore.

(** X20. The rebalance of all groups never throws. Each group keeps its
    id, members and offsets; every consumer id it assigns is the id of one
    of its members and every key it assigns is a partition key of the
    topics; a group with at least one member has every partition key
    assigned. *)
Theorem rebalanceAll_total (gs : list ConsumerGroup.t) (topics : list Topic.t) :
  ∃ gs', rebalanceAll gs topics = Some gs' ∧ Forall2 (rebalanced topics) gs gs'.
Proof.
  unfold rebalanceAll. induction gs as [|g gs (gs' & Hgs & Hall)].
  - exists []. by split.
  - destruct (rebalanceGroup_total g topics) as (g' & Hg & Hreb).
    exists (g' :: gs'). split; [|by constructor].
    apply mapM_Some_2. constructor; [done|]. by apply mapM_Some_1.
Qed.

(** ** Group membership and offsets *)

Section Members.

Lemma with_members_same g : with_members g (ConsumerGroup.members g) = g.
Proof. by destruct g. Qed.

Lemma canonical_ids_S n :
  canonical_ids (S n) = canonical_ids n ++ ["c" +:+ pretty (Z.of_nat n + 1)].
Proof. unfold canonical_ids. by rewrite seq_S, fmap_app. Qed.

Lemma canonical_ids_length n : length (canonical_ids n) = n.
Proof. unfold canonical_ids. by rewrite length_fmap, length_seq. Qed.

Lemma canonical_ids_NoDup n : NoDup (canonical_ids n).
Proof.
  unfold canonical_ids. apply NoDup_fmap_2_strong; [|apply NoDup_seq].
  intros i j _ _ Heq. rewrite !append_cons, !append_nil in Heq.
  injection Heq as Heq. apply (inj pretty) in Heq. lia.
Qed.

Lemma canonical_ids_take n : take (n - 1) (canonical_ids n) = canonical_ids (n - 1).
Proof.
  unfold canonical_ids. rewrite <- fmap_take, take_seq. do 2 f_equal. lia.
Qed.

End Members.

(** X21. Removing a consumer right after adding one gives back the groups
    as they were, and removing from groups without members changes
    nothing. *)
Theorem removeConsumer_addConsumer (gs : list ConsumerGroup.t) (gid : string) :
  removeConsumer (addConsumer gs gid) gid = gs
  ∧ ((∀ g, g ∈ gs → ConsumerGroup.id g = gid → ConsumerGroup.members g = []) →
     removeConsumer gs gid = gs).
Proof.
  split.
  - unfold removeConsumer, addConsumer. rewrite <- list_fmap_compose.
    rewrite <- (list_fmap_id gs) at 2. apply list_fmap_ext. intros _ g _. simpl.
    destruct (decide (ConsumerGroup.id g = gid)) as [Hid|Hid]; simpl.
    + rewrite decide_True by done. unfold with_members at 1. simpl.
      rewrite length_app. simpl.
      rewrite take_app_length' by lia. by destruct g.
    + by rewrite decide_False.
  - intros Hempty. unfold removeConsumer.
    rewrite <- (list_fmap_id gs) at 2. apply list_fmap_ext. intros j g Hj. simpl.
    case_decide as Hid; [|done].
    rewrite (Hempty g (list_elem_of_lookup_2 _ _ _ Hj) Hid). simpl.
    rewrite <- (Hempty g (list_elem_of_lookup_2 _ _ _ Hj) Hid).
    apply with_members_same.
Qed.

(** X22. A group whose member ids are [c1, ..., cn] has pairwise distinct
    member ids; after "add consumer" its ids are [c1, ..., c(n+1)], after
    "remove" they are [c1, ..., c(n-1)]. *)
Theorem consumer_ids_canonical
    (gs : list ConsumerGroup.t) (gid : string) (j : nat) (g : ConsumerGroup.t)
    (n : nat) :
  gs !! j = Some g →
  ConsumerGroup.id g = gid →
  Consumer.id <$> ConsumerGroup.members g = canonical_ids n →
  NoDup (Consumer.id <$> ConsumerGroup.members g)
  ∧ (∃ g', addConsumer gs gid !! j = Some g'
           ∧ Consumer.id <$> ConsumerGroup.members g' = canonical_ids (S n))
  ∧ (∃ g', removeConsumer gs gid !! j = Some g'
           ∧ Consumer.id <$> ConsumerGroup.members g' = canonical_ids (n - 1)).
Proof.
  intros Hj Hid Hcan.
  assert (Hlen : length (ConsumerGroup.members g) = n).
  { rewrite <- (length_fmap Consumer.id), Hcan. apply canonical_ids_length. }
  split; [rewrite Hcan; apply canonical_ids_NoDup|]. split.
  - eexists. split.
    + unfold addConsumer. rewrite list_lookup_fmap, Hj. simpl.
      by rewrite decide_True.
    + simpl. rewrite fmap_app, Hcan, Hlen. simpl. by rewrite canonical_ids_S.
  - eexists. split.
    + unfold removeConsumer. rewrite list_lookup_fmap, Hj. simpl.
      by rewrite decide_True.
    + simpl. rewrite fmap_take, Hcan, Hlen. apply canonical_ids_take.
Qed.

Lemma consumer_ids_canonical_witness :
  NoDup (Consumer.id <$> ConsumerGroup.members group_c1_c2).
Proof.
  by destruct (consumer_ids_canonical [group_c1_c2] "g1" 0 group_c1_c2 2
                 eq_refl eq_refl eq_refl) as [Hnd _].
Defined.

Section Lag.

Variable g : ConsumerGroup.t.

Lemma lag_fold_topic t acc :
  foldl (λ a p, (a.1 + computeLagFor g t p, a.2 + 1)) acc (Topic.partitions t)
  = foldl (lag_step g) acc (keyed_partitions [t]).
Proof using Type.
  unfold keyed_partitions. simpl. rewrite app_nil_r. by rewrite foldl_fmap.
Qed.

Lemma groupLagSummary_fold cluster :
  groupLagSummary cluster g
  = foldl (lag_step g) (0, 0) (keyed_partitions (Cluster.topics cluster)).
Proof using Type.
  unfold groupLagSummary. generalize (0, 0). generalize (Cluster.topics cluster).
  induction l as [|t ts IH]; intros acc; [done|].
  rewrite keyed_partitions_cons, foldl_app, <- lag_fold_topic. apply IH.
Qed.

Lemma lag_fold_sum l :
  ∀ acc, foldl (lag_step g) acc l
         = (acc.1 + (foldr Z.add 0 l.*2 - foldr Z.add 0 (committed g <$> l.*1)),
            acc.2 + Z.of_nat (length l)).
Proof using Type.
  induction l as [|[k e] l IH]; intros [tot parts].
  - simpl. f_equal; lia.
  - change (foldl (lag_step g) (tot, parts) ((k, e) :: l))
      with (foldl (lag_step g) (lag_step g (tot, parts) (k, e)) l).
    rewrite IH, !fmap_cons. unfold lag_step.
    cbn [foldr length fst snd]. f_equal; lia.
Qed.

End Lag.

(** X23. [groupLagSummary] counts every partition of the cluster in
    [parts], and its [totalLag] is the sum of all end offsets minus the
    committed offsets summed over the partitions (a key carried by two
    partitions counts twice; an absent offset counts as 0). *)
Theorem groupLagSummary_total (cluster : Cluster.t) (g : ConsumerGroup.t) :
  groupLagSummary cluster g
  = (total_end_offset (Cluster.topics cluster)
     - total_committed g (Cluster.topics cluster),
     Z.of_nat (length (allParts (Cluster.topics cluster)))).
Proof.
  rewrite groupLagSummary_fold, lag_fold_sum. simpl.
  unfold total_end_offset, total_committed.
  by rewrite allParts_keyed, length_fmap.
Qed.

(** X24. "Reset offsets" empties the offsets of every group that has the
    given id, not only of the first one, and touches nothing else. For
    such a group the lag of every partition is then its end offset and the
    total lag is the sum of all end offsets. *)
Theorem resetOffsets_lag
    (gs : list ConsumerGroup.t) (gid : string) (cluster : Cluster.t)
    (j : nat) (g : ConsumerGroup.t) :
  gs !! j = Some g →
  ∃ g', resetOffsets gs gid !! j = Some g'
    ∧ (ConsumerGroup.id g ≠ gid → g' = g)
    ∧ (ConsumerGroup.id g = gid →
       g' = ConsumerGroup.set_offsets g ∅
       ∧ (∀ t p, computeLagFor g' t p = Partition.endOffset p)
       ∧ (groupLagSummary cluster g').1 = total_end_offset (Cluster.topics cluster)).
Proof.
  intros Hj. unfold resetOffsets. rewrite list_lookup_fmap, Hj. simpl.
  eexists. split; [reflexivity|]. case_decide as Hid.
  - split; [done|]. intros _. split; [done|].
    assert (Hzero : ∀ k, committed (ConsumerGroup.set_offsets g ∅) k = 0).
    { intros k. unfold committed. simpl. by rewrite lookup_empty. }
    split.
    + intros t p. unfold computeLagFor. rewrite Hzero. lia.
    + rewrite groupLagSummary_fold, lag_fold_sum. simpl.
      unfold total_end_offset.
      assert (foldr Z.add 0
                (committed (ConsumerGroup.set_offsets g ∅)
                   <$> (keyed_partitions (Cluster.topics cluster)).*1) = 0) as ->;
        [|lia].
      induction ((keyed_partitions (Cluster.topics cluster)).*1) as [|k l IH];
        [done|]. rewrite fmap_cons. simpl. rewrite Hzero, IH. done.
  - split; [done|]. by intros ?.
Qed.

Lemma resetOffsets_lag_witness :
  ∃ g', resetOffsets [group_assigned] "g1" !! 0%nat = Some g'
    ∧ (groupLagSummary cluster_three g').1 = 6.
Proof.
  destruct (resetOffsets_lag [group_assigned] "g1" cluster_three 0 group_assigned
              eq_refl) as (g' & Hg' & _ & Hreset).
  exists g'. split; [exact Hg'|].
  destruct (Hreset eq_refl) as (_ & _ & ->). by vm_compute.
Defined.

(** ** Reachable clusters *)

Section Reachable.

Lemma built_safe brokerCount cfgs ts :
  1 <= brokerCount →
  Forall2 (built_from brokerCount) cfgs ts →
  all_safe (Cluster.mk (built_brokers brokerCount) ts).
Proof.
  intros Hbc Hts ti pi p Hp.
  destruct (built_partition_at _ _ _ _ _ _ _ Hts Hp) as (cfg & _ & _ & ->).
  unfold election_safe. simpl. rewrite replica_ids_head by lia.
  set (i := Z.of_nat pi mod brokerCount).
  assert (Hi : 0 <= i < brokerCount) by (apply Z.mod_pos_bound; lia).
  assert (Hup : is_up (Cluster.mk (built_brokers brokerCount) ts)
                  (Broker.id (build_broker i))).
  { exists (build_broker i). split; [by apply built_brokers_elem|done]. }
  split; [|split].
  - split; [done|]. intros Hall. destruct (Hall (Broker.id (build_broker i))); [|done].
    apply head_Some_elem_of. apply replica_ids_head; lia.
  - by intros l [= <-].
  - done.
Qed.

Lemma toggle_safe c id c' :
  well_formed c → toggleBroker c id = Some c' → all_safe c'.
Proof.
  intros Hwf Ht. apply toggleBroker_Some in Ht as (i & b & Hf & ->).
  apply list_find_Some in Hf as (Hi & _ & _).
  intros ti pi p'. apply elect_safe_everywhere.
  apply (well_formed_flags c); [|done]. by apply flip_ids.
Qed.

Lemma setAllUp_safe c up : well_formed c → all_safe (setAllUp c up).
Proof.
  intros Hwf. rewrite setAllUp_eq. intros ti pi p'. apply elect_safe_everywhere.
  apply (well_formed_flags c); [|done].
  rewrite <- list_fmap_compose. by apply list_fmap_ext.
Qed.

(** The partitions after a [produce], position by position. *)
Lemma produce_partitions rnd produceTopic produceKey prev next :
  produce rnd produceTopic produceKey prev = Some next →
  Cluster.brokers next = Cluster.brokers prev
  ∧ ∀ ti pi p', partition_at next ti pi = Some p' →
      ∃ p, partition_at prev ti pi = Some p
        ∧ Partition.leader p' = Partition.leader p
        ∧ Partition.replicas p' = Partition.replicas p
        ∧ Partition.offline p' = Partition.offline p.
Proof.
  intros Hp. apply produce_inv in Hp as [->|(ti & pi & t & _ & Happ)].
  - split; [done|]. intros ti pi p' Hp'. by exists p'.
  - split; [by eapply appended_brokers|]. intros ti' pi' p' Hp'.
    rewrite (appended_partition_at _ _ _ _ ti' pi' Happ) in Hp'.
    destruct (partition_at prev ti' pi') as [p|]; [|done].
    exists p. split; [done|]. injection Hp' as <-. by case_decide.
Qed.

Lemma produce_safe rnd produceTopic produceKey prev next :
  produce rnd produceTopic produceKey prev = Some next →
  all_safe prev → all_safe next.
Proof.
  intros Hp Hsafe ti pi p' Hp'.
  destruct (produce_partitions _ _ _ _ _ Hp) as [Hb Hparts].
  destruct (Hparts _ _ _ Hp') as (p & Hpp & Hl & Hr & Ho).
  specialize (Hsafe _ _ _ Hpp). unfold election_safe, is_up in *.
  by rewrite Hl, Hr, Ho, Hb.
Qed.

Lemma produce_well_formed rnd produceTopic produceKey prev next :
  produce rnd produceTopic produceKey prev = Some next →
  well_formed prev → well_formed next.
Proof.
  intros Hp. destruct (produce_partitions _ _ _ _ _ Hp) as [Hb Hparts].
  apply well_formed_offsets; [done|].
  intros ti pi p' Hp'. destruct (Hparts _ _ _ Hp') as (p & Hpp & Hl & Hr & _).
  by exists p.
Qed.

Lemma failRandomBroker_inv rnd c c' :
  failRandomBroker rnd c = Some c' →
  c' = c ∨ ∃ id, toggleBroker c id = Some c'.
Proof.
  unfold failRandomBroker. case_decide; [intros [= <-]; by left|].
  destruct (JS.index _ _) as [b|]; [|done]. simpl. eauto.
Qed.





End Reachable.





(** X25. Every cluster the component can reach, from a build on at least
    one broker through elections, broker toggles, fail/heal commands and
    produces, is well formed, and each of its partitions is election-safe:
    its leader is null exactly when none of its replicas is up, a non-null
    leader is up, and [offline] is true exactly when the leader is null. *)
Theorem reachable_safe (c : Cluster.t) :
  reachable c → well_formed c ∧ all_safe c.
Proof.
  induction 1 as [bc cfgs c Hbc Hc | c _ [Hwf _] | c id c' _ [Hwf _] Ht
                 | c up _ [Hwf _] | rnd c c' _ [Hwf Hsafe] Hfail
                 | rnd tp key c c' _ [Hwf Hsafe] Hp].
  - destruct (buildCluster_inv bc Hbc cfgs c Hc) as (ts & -> & Hts).
    split; [by eapply built_well_formed|by eapply built_safe].
  - split; [by apply elect_well_formed|].
    intros ti pi p'. by apply elect_safe_everywhere.
  - split; [by eapply toggleBroker_keeps_well_formed|by eapply toggle_safe].
  - split; [by apply setAllUp_keeps_well_formed|by apply setAllUp_safe].
  - apply failRandomBroker_inv in Hfail as [->|[id Ht]]; [done|].
    split; [by eapply toggleBroker_keeps_well_formed|by eapply toggle_safe].
  - split; [by eapply produce_well_formed|by eapply produce_safe].
Qed.

Lemma reachable_safe_witness :
  ∃ c, reachable c ∧ all_safe c
    ∧ (Partition.leader <$> partition_at c 0 0) = Some (Some "b1"%string).
Proof.
  assert (Hr : reachable (Cluster.mk
                 [Broker.mk "b0" "broker-0" false; Broker.mk "b1" "broker-1" true]
                 [Topic.mk "t" [Partition.mk 0 "t" (Some "b1") ["b0"; "b1"]
                                  (Some false) 0] "#22c55e"])).
  { eapply (reach_toggle _ "b0").
    - by apply (reach_build 2 [TopicConfig.mk "t" 1 2]).
    - reflexivity. }
  eexists. split; [exact Hr|]. split; [|reflexivity].
  by apply (reachable_safe _ Hr).
Defined.

(** X26. [hashKeyToPartition] is [NaN] for a partition count of 0; for
    any other count [n], negative ones included, it is
    [|h| mod |n|], which lies in [[0, |n|)]. *)
Theorem hashKeyToPartition_edges (key : string) (n : Z) :
  (n = 0 → hashKeyToPartition key n = None)
  ∧ (n ≠ 0 →
     hashKeyToPartition key n = Some (Z.abs (rolling_hash key) mod Z.abs n)
     ∧ 0 <= Z.abs (rolling_hash key) mod Z.abs n < Z.abs n).
Proof.
  unfold hashKeyToPartition, hash_partition, JS.rem, hash_units, rolling_hash.
  rewrite hash_fold_rolling. split.
  - intros ->. by rewrite decide_True.
  - intros Hn. rewrite decide_False by done. split.
    + f_equal. rewrite <- Z.rem_abs_r by done. apply Z.rem_mod_nonneg; lia.
    + apply Z.mod_pos_bound. lia.
Qed.

(** ** From rebalance to consumption *)

(** X27. A group without assignments is not moved by the consume loop:
    [consumeOnce] hands back the groups as they were. This is the state
    [rebalanceGroup] leaves a group without members in. *)
Theorem consumeOnce_unassigned
    (groups : list ConsumerGroup.t) (cluster : Cluster.t) (groupId : string) :
  (∀ g, g ∈ groups → ConsumerGroup.id g = groupId →
        ConsumerGroup.assignments g = ∅) →
  consumeOnce groups cluster groupId = groups.
Proof.
  intros Hnone. unfold consumeOnce.
  destruct (list_find _ groups) as [[i g]|] eqn:Hf; [|done].
  apply list_find_Some in Hf as (Hi & Hid & _).
  specialize (Hnone g (list_elem_of_lookup_2 _ _ _ Hi) Hid).
  apply list_insert_id. rewrite Hi. f_equal.
  rewrite consume_cluster_keys.
  induction (keyed_partitions (Cluster.topics cluster)) as [|[pk e] l IH]; [done|].
  change (consume_keys ((pk, e) :: l) g) with (consume_keys l (consume_key pk e g)).
  replace (consume_key pk e g) with g; [done|].
  unfold consume_key. by rewrite Hnone, lookup_empty.
Qed.

Lemma consumeOnce_unassigned_witness :
  consumeOnce [group_c1_c2] cluster_three "g1" = [group_c1_c2].
Proof.
  apply consumeOnce_unassigned. intros g Hg _. by elem_of_cases Hg.
Defined.

(** X28. On a cluster that [buildCluster] has returned for
    [brokerCount ≥ 1] and pairwise distinct topic names, and a group whose
    member ids are [c1, ..., cn] with [n ≥ 1], the rebalance gives a group
    in which every partition key of the cluster is assigned, to a non-empty
    consumer id, the keys being pairwise distinct: the state in which a
    consume step advances each lagging partition by exactly 1. *)
Theorem rebalance_after_build
    (brokerCount : Z) (topicsConfig : list TopicConfig.t) (c : Cluster.t)
    (g : ConsumerGroup.t) (n : nat) :
  1 <= brokerCount →
  NoDup (TopicConfig.name <$> topicsConfig) →
  Consumer.id <$> ConsumerGroup.members g = canonical_ids (S n) →
  buildCluster brokerCount topicsConfig = Some c →
  ∃ g', rebalanceGroup g (Cluster.topics c) = Some g'
    ∧ NoDup (allParts (Cluster.topics c))
    ∧ assigned_ids_nonempty g'
    ∧ ∀ pk, pk ∈ allParts (Cluster.topics c) → has_consumer g' pk.
Proof.
  intros Hbc Hnames Hcan Hc.
  destruct (buildCluster_inv brokerCount Hbc topicsConfig c Hc) as (ts & -> & Hts).
  destruct (rebalanceGroup_total g ts) as (g' & Hg' & _ & _ & _ & Hvals & Hdom).
  exists g'. split; [exact Hg'|]. simpl. split; [|split].
  - apply allParts_distinct.
    + by rewrite (built_topics_names _ _ _ Hts).
    + intros t Ht. apply list_elem_of_lookup_1 in Ht as [i Hi].
      destruct (Forall2_lookup_r _ _ _ _ _ Hts Hi) as (cfg & _ & Hb).
      rewrite (built_partition_ids _ _ _ Hb). apply NoDup_seqZ.
  - intros pk a Ha. destruct (Hvals pk a Ha) as (_ & c & Hc' & <-).
    assert (Hin : Consumer.id c ∈ canonical_ids (S n)).
    { rewrite <- Hcan. apply list_elem_of_fmap. by exists c. }
    unfold canonical_ids in Hin. apply list_elem_of_fmap in Hin as (i & -> & _).
    by rewrite append_cons.
  - apply Hdom. intros Hnil. rewrite Hnil in Hcan.
    apply (f_equal length) in Hcan. rewrite canonical_ids_length in Hcan. done.
Qed.

Lemma rebalance_after_build_witness :
  ∃ c g', buildCluster 3 [TopicConfig.mk "t" 3 2] = Some c
    ∧ rebalanceGroup group_c1_c2 (Cluster.topics c) = Some g'
    ∧ assigned_ids_nonempty g'.
Proof.
  destruct (buildCluster 3 [TopicConfig.mk "t" 3 2]) as [c|] eqn:Hc;
    [|by vm_compute in Hc].
  destruct (rebalance_after_build 3 [TopicConfig.mk "t" 3 2] c group_c1_c2 1)
    as (g' & Hg' & _ & Hne & _).
  - lia.
  - apply (bool_decide_unpack _). vm_compute. exact I.
  - reflexivity.
  - exact Hc.
  - by exists c, g'.
Defined.

(** ** Topic configuration commands *)

Lemma filter_index_delete {A} (idx : nat) (l : list A) :
  ∀ k : nat,
    filter_index (λ i, negb (i =? idx)%nat) k l
    = if decide (k ≤ idx)%nat then delete (idx - k)%nat l else l.
Proof.
  induction l as [|x l IH]; intros k; simpl.
  - by case_decide.
  - rewrite IH. destruct (Nat.eqb_spec k idx) as [->|Hne]; simpl.
    + rewrite (decide_False (P := (S idx ≤ idx)%nat)) by lia.
      rewrite (decide_True (P := (idx ≤ idx)%nat)) by lia.
      by rewrite Nat.sub_diag.
    + destruct (decide (k ≤ idx)%nat) as [Hle|Hgt].
      * rewrite (decide_True (P := (S k ≤ idx)%nat)) by lia.
        replace (idx - k)%nat with (S (idx - S k)) by lia. done.
      * by rewrite (decide_False (P := (S k ≤ idx)%nat)) by lia.
Qed.

(** X29. [removeTopic(idx)] drops exactly the configuration at position
    [idx] and keeps the others in order; an index past the end removes
    nothing; and removing the last position right after [addTopic] gives
    back the configurations as they were. *)
Theorem removeTopic_effect (prev : list TopicConfig.t) (idx : nat) :
  removeTopic prev idx = take idx prev ++ drop (S idx) prev
  ∧ ((length prev ≤ idx)%nat → removeTopic prev idx = prev)
  ∧ ((idx < length prev)%nat → S (length (removeTopic prev idx)) = length prev)
  ∧ removeTopic (addTopic prev) (length prev) = prev.
Proof.
  assert (Hdel : ∀ l i, removeTopic l i = take i l ++ drop (S i) l).
  { intros l i. unfold removeTopic. rewrite filter_index_delete.
    rewrite decide_True by lia. rewrite Nat.sub_0_r. apply delete_take_drop. }
  split; [apply Hdel|]. split; [|split].
  - intros Hge. rewrite Hdel, take_ge, drop_ge by lia. apply app_nil_r.
  - intros Hlt. rewrite Hdel, length_app, length_take, length_drop. lia.
  - rewrite Hdel. unfold addTopic.
    rewrite take_app_length, drop_ge by (rewrite length_app; simpl; lia).
    apply app_nil_r.
Qed.
